(** * Self-organizing map of [ark/phenotyping/cluster.py]

    A shallow embedding of [decay_function], [winner], [update], [train_som]
    and [cluster_som], with the numpy and pandas operations they call.

    Numbers.  The arrays of the program hold binary64 floats.  The main
    development reads every arithmetic operation over the real numbers
    (type [R]): rounding, overflow and underflow are not part of it.  The
    scalar expressions of [decay_function] and of the kernel denominator of
    [update] are embedded a second time, bit for bit, over Rocq's primitive
    binary64 floats in [Module Binary64].

    Arrays.  A numpy array is a nested list in C (row-major) order: a
    vector is [list R], a matrix a list of rows, the weights a list (over x)
    of lists (over y) of prototype vectors.  numpy arrays are rectangular;
    [has_shape] and [mat_shape] state it.

    Exceptions.  A Python call that can raise returns a [result].

    Mutation.  The functions are embedded twice: as functions on array
    values, and (the [_h] versions) as computations on a store of arrays
    that records which arrays a call allocates and which it overwrites. *)

From Stdlib Require Import String Ascii DecimalString DecimalNat Decimal.
From Stdlib Require Import PrimFloat Uint63.
From Stdlib Require Import List Arith ZArith Lia Bool Permutation.
From Stdlib Require Import Reals Lra Psatz.
Import ListNotations.

(* ================================================================== *)
(** ** Python exceptions as an error monad *)
(* ================================================================== *)

Inductive exn : Type :=
| ValueError
| ZeroDivisionError
| IndexError
| KeyError
| TypeError.

Inductive result (A : Type) : Type :=
| Ok (a : A)
| Raise (e : exn).

Arguments Ok {A} a.
Arguments Raise {A} e.

Definition bind {A B : Type} (c : result A) (k : A -> result B) : result B :=
  match c with
  | Ok a => k a
  | Raise e => Raise e
  end.

Declare Scope py_scope.
Delimit Scope py_scope with py.
Notation "x <- c ;; k" := (bind c (fun x => k))
  (at level 61, c at next level, right associativity) : py_scope.
Open Scope py_scope.

Definition is_ok {A : Type} (r : result A) : bool :=
  match r with Ok _ => true | Raise _ => false end.

(** [[f(a) for a in l]], stopping at the first exception. *)
Fixpoint mapM {A B : Type} (f : A -> result B) (l : list A) : result (list B) :=
  match l with
  | [] => Ok []
  | a :: l' => b <- f a ;; bs <- mapM f l' ;; Ok (b :: bs)
  end.

(** [for a in l: s = body(s, a)], stopping at the first exception. *)
Fixpoint for_each {A S : Type} (body : S -> A -> result S) (l : list A) (s : S)
  : result S :=
  match l with
  | [] => Ok s
  | a :: l' => s' <- body s a ;; for_each body l' s'
  end.

(** [enumerate(l)] *)
Definition enumerate {A : Type} (l : list A) : list (nat * A) :=
  combine (seq 0 (length l)) l.

(* ================================================================== *)
(** ** numpy arrays and the operations the program uses *)
(* ================================================================== *)

Abbreviation vec := (list R) (only parsing).
Abbreviation mat := (list (list R)) (only parsing).
Abbreviation grid := (list (list (list R))) (only parsing).

(** Shape [(X, Y, C)] of a weights array. *)
Definition has_shape (X Y C : nat) (w : grid) : Prop :=
  length w = X /\
  Forall (fun row => length row = Y /\ Forall (fun p : vec => length p = C) row) w.

(** Shape [(n, m)] of a matrix. *)
Definition mat_shape (n m : nat) (a : mat) : Prop :=
  length a = n /\ Forall (fun r : vec => length r = m) a.

(** [w[x, y]] and [w[x, y, k]], with a default outside the array; the
    theorems read the arrays through them inside the bounds only. *)
Definition cell (w : grid) (x y : nat) : vec := nth y (nth x w []) [].
Definition at3 (w : grid) (x y k : nat) : R := nth k (cell w x y) 0%R.
Definition at2 (a : mat) (i j : nat) : R := nth j (nth i a []) 0%R.

(** numpy broadcasting of a binary operation along one axis: the lengths
    agree, or one of them is 1; otherwise "operands could not be broadcast
    together" (a ValueError). *)
Definition bcast {A B C : Type} (f : A -> B -> result C) (a : list A) (b : list B)
  : result (list C) :=
  if Nat.eqb (length a) (length b)
  then mapM (fun p => f (fst p) (snd p)) (combine a b)
  else match a, b with
       | [x], _ => mapM (f x) b
       | _, [y] => mapM (fun x => f x y) a
       | _, _ => Raise ValueError
       end.

Definition lift2 (f : R -> R -> R) (x y : R) : result R := Ok (f x y).

(** [np.subtract(sample, weights)] for a 1-d [sample] and 3-d [weights]:
    the sample is broadcast against the last axis of every prototype.  (On a
    grid without neurons numpy still compares the trailing dimensions; a
    nested list has none to compare then.  [winner] raises the same
    ValueError on such a grid in either case, from [argmin].) *)
Definition np_subtract (sample : vec) (weights : grid) : result grid :=
  mapM (mapM (bcast (lift2 Rminus) sample)) weights.

(** [np.linalg.norm(v)] along the last axis: the square root of the sum of
    the squares. *)
Definition sum_list (l : list R) : R := fold_right Rplus 0%R l.
Definition norm (v : vec) : R := sqrt (sum_list (map (fun a => a * a)%R v)).
Definition np_linalg_norm (a : grid) : mat := map (map norm) a.

(** [a.argmin()] of the flattened array: the index of the first occurrence
    of the minimum; ValueError on an empty array. *)
Fixpoint argmin_from (best_i : nat) (best : R) (i : nat) (l : list R) : nat :=
  match l with
  | [] => best_i
  | v :: l' =>
      if Rlt_dec v best
      then argmin_from i v (S i) l'
      else argmin_from best_i best (S i) l'
  end.

Definition argmin (a : mat) : result nat :=
  match concat a with
  | [] => Raise ValueError
  | v :: l => Ok (argmin_from 0 v 1 l)
  end.

(** [a.shape] of a matrix. *)
Definition shape (a : mat) : nat * nat := (length a, length (hd [] a)).

(** [np.unravel_index(idx, (n, m))] in C order. *)
Definition np_unravel_index (idx : nat) (shp : nat * nat) : result (nat * nat) :=
  let '(n, m) := shp in
  if idx <? n * m then Ok (idx / m, idx mod m) else Raise ValueError.

(** [np.arange(n)], then [.astype(float)] where the program converts. *)
Definition np_arange (n : nat) : list nat := seq 0 n.

(** [np.meshgrid(xs, ys)] with the default ['xy'] indexing: both results
    have [len(ys)] rows and [len(xs)] columns; the first repeats [xs] in
    every row, the second holds [ys[i]] all along row [i]. *)
Definition np_meshgrid (xs ys : list nat) : mat * mat :=
  (map (fun _ => map INR xs) ys,
   map (fun y => map (fun _ => INR y) xs) ys).

(** [a.T] of a matrix. *)
Definition transpose (a : mat) : mat :=
  map (fun j => map (fun r => nth j r 0%R) a) (seq 0 (length (hd [] a))).

(** [a[coords]] for a matrix and a pair of indices. *)
Definition getitem (a : mat) (coords : nat * nat) : result R :=
  match nth_error a (fst coords) with
  | None => Raise IndexError
  | Some r =>
      match nth_error r (snd coords) with
      | None => Raise IndexError
      | Some v => Ok v
      end
  end.

(** A function applied to every entry of a matrix (array-with-scalar
    operations, [np.power(., 2)], [np.exp], unary minus). *)
Definition map2d (f : R -> R) (a : mat) : mat := map (map f) a.

(** [a * b] for two matrices. *)
Definition np_multiply (a b : mat) : result mat :=
  bcast (bcast (lift2 Rmult)) a b.

(** [np.einsum('ij, ijk->ijk', g, a)]: prototype [(i, j)] of [a] scaled by
    [g[i, j]]. *)
Definition np_einsum (g : mat) (a : grid) : result grid :=
  bcast (bcast (fun s (p : vec) => Ok (map (Rmult s) p))) g a.

(** [a + b] for two 3-d arrays. *)
Definition np_add (a b : grid) : result grid :=
  bcast (bcast (bcast (lift2 Rplus))) a b.

(* ================================================================== *)
(** ** cluster.py *)
(* ================================================================== *)

(** Python [x / y] on floats. *)
Definition py_truediv (x y : R) : result R :=
  if Req_dec_T y 0 then Raise ZeroDivisionError else Ok (x / y)%R.

(** [decay_function(param, t, num_iters)]:
    [param / (1 + t / (num_iters / 2))]. *)
Definition decay_function (param : R) (t num_iters : Z) : result R :=
  half <- py_truediv (IZR num_iters) 2 ;;
  q <- py_truediv (IZR t) half ;;
  py_truediv param (1 + q).

(** [winner(sample, weights)] *)
Definition winner (sample : vec) (weights : grid) : result (nat * nat) :=
  diff <- np_subtract sample weights ;;
  let activation_map := np_linalg_norm diff in
  idx <- argmin activation_map ;;
  np_unravel_index idx (shape activation_map).

(** [update(sample, weights, winning_coords, sigma, learning_rate, x_mesh,
    y_mesh)].  The division by [d] is numpy's: it does not raise.  For
    [d = 0] numpy yields inf or nan, which the real-number reading does not
    have; the theorems on [update] keep to [sigma > 0]. *)
Definition update (sample : vec) (weights : grid) (winning_coords : nat * nat)
  (sigma learning_rate : R) (x_mesh y_mesh : mat) : result grid :=
  let d := (2 * PI * sigma * sigma)%R in
  cx <- getitem (transpose x_mesh) winning_coords ;;
  let ax := map2d (fun v => exp ((- ((v - cx) ^ 2)) / d))%R x_mesh in
  cy <- getitem (transpose y_mesh) winning_coords ;;
  let ay := map2d (fun v => exp ((- ((v - cy) ^ 2)) / d))%R y_mesh in
  axay <- np_multiply ax ay ;;
  let g := map2d (fun v => v * learning_rate)%R (transpose axay) in
  diff <- np_subtract sample weights ;;
  delta <- np_einsum g diff ;;
  np_add weights delta.

(** A [pandas.DataFrame] of floats: the labels of its rows ([df_index]) and
    the rows themselves ([df_values]), as many as there are labels.  The
    labels are taken to be distinct (with a repeated label [.loc] returns
    several rows). *)
Record DataFrame : Type := {
  df_index : list Z;
  df_values : list (list R)
}.

(** The default [RangeIndex]: row [i] has label [i]. *)
Definition range_index (n : nat) : list Z := map Z.of_nat (np_arange n).

(** [pd.DataFrame(rows)] *)
Definition frame (rows : list (list R)) : DataFrame :=
  {| df_index := range_index (length rows); df_values := rows |}.

(** [index.get_loc(label)]: the position of a label. *)
Fixpoint get_loc (idx : list Z) (label : Z) : option nat :=
  match idx with
  | [] => None
  | l :: rest =>
      if Z.eqb l label then Some 0 else option_map S (get_loc rest label)
  end.

(** [pixel_mat.loc[row, :].values]: the row whose label is [row]; KeyError
    when no row has that label. *)
Definition loc (pixel_mat : DataFrame) (row : nat) : result vec :=
  match get_loc (df_index pixel_mat) (Z.of_nat row) with
  | None => Raise KeyError
  | Some i =>
      match nth_error (df_values pixel_mat) i with
      | Some r => Ok r
      | None => Raise KeyError
      end
  end.

(** Lines 114-115: the uniform draws mapped to [-1, 1), then every
    prototype divided by its norm.  (For a prototype of norm zero numpy
    yields nan; the real-number reading has none, and no statement below
    depends on the values of the initial grid.) *)
Definition initial_weights (rnd : grid) : grid :=
  let weights := map (map (map (fun v => v * 2 - 1)%R)) rnd in
  map (map (fun p : vec => map (fun v => v / norm p)%R p)) weights.

(** The body of the training loop, for the pair [(t, row)] of
    [enumerate(iter_row)]. *)
Definition train_step (pixel_mat : DataFrame) (num_iters : Z)
  (sigma learning_rate : R) (x_mesh y_mesh : mat)
  (weights : grid) (t_row : nat * nat) : result grid :=
  let '(t, row) := t_row in
  sample <- loc pixel_mat row ;;
  winning_coords <- winner sample weights ;;
  decay_sigma <- decay_function sigma (Z.of_nat t) num_iters ;;
  decay_learning_rate <- decay_function learning_rate (Z.of_nat t) num_iters ;;
  sample' <- loc pixel_mat row ;;
  update sample' weights winning_coords decay_sigma decay_learning_rate
    x_mesh y_mesh.

(** [np.arange(num_iters) % n] *)
Definition iter_rows (num_iters : Z) (n : nat) : list nat :=
  map (fun i => i mod n) (np_arange (Z.to_nat num_iters)).

(** [train_som(pixel_mat, x_neurons, y_neurons, num_passes, sigma,
    learning_rate, random_seed)].  The generator is not modelled: [rnd] is
    the array that [rand_gen.rand(x_neurons, y_neurons, pixel_mat.shape[1])]
    returns for the seed. *)
Definition train_som (pixel_mat : DataFrame) (x_neurons y_neurons : nat)
  (num_passes : Z) (sigma learning_rate : R) (rnd : grid) : result grid :=
  let weights := initial_weights rnd in
  let '(x_mesh, y_mesh) :=
    np_meshgrid (np_arange x_neurons) (np_arange y_neurons) in
  let num_iters := (num_passes * Z.of_nat (length (df_values pixel_mat)))%Z in
  let iter_row := iter_rows num_iters (length (df_values pixel_mat)) in
  for_each (train_step pixel_mat num_iters sigma learning_rate x_mesh y_mesh)
    (enumerate iter_row) weights.

(** Values held by a pandas Series of dtype [object]. *)
Inductive pyval : Type :=
| PyStr (s : string)
| PyInt (n : Z).

Definition pyval_eqb (a b : pyval) : bool :=
  match a, b with
  | PyStr s, PyStr t => String.eqb s t
  | PyInt n, PyInt m => Z.eqb n m
  | _, _ => false
  end.

(** [str(n)] of a non-negative integer: its decimal digits. *)
Definition str_of_nat (n : nat) : string :=
  NilEmpty.string_of_uint (Nat.to_uint n).

(** [str((x, y))] of a pair of integers, which is what [.astype(str)] makes of
    every winning coordinate. *)
Definition str_of_coords (c : nat * nat) : string :=
  ("(" ++ str_of_nat (fst c) ++ ", " ++ str_of_nat (snd c) ++ ")")%string.

(** [Series.unique()]: the distinct values in order of first appearance. *)
Definition unique (s : list pyval) : list pyval :=
  fold_left
    (fun seen v => if existsb (pyval_eqb v) seen then seen else seen ++ [v])
    s [].

(** [np.putmask(s, mask, new)] *)
Definition putmask (mask : list bool) (new : pyval) (s : list pyval) : list pyval :=
  map (fun be : bool * pyval => if fst be then new else snd be) (combine mask s).

(** [Series.replace(to_replace=[...], value=[...])]: the lists must have the
    same length; the mask of every source value is taken on the original
    Series, then the replacements are written one after the other. *)
Definition replace (to_replace value : list pyval) (s : list pyval)
  : result (list pyval) :=
  if Nat.eqb (length to_replace) (length value)
  then
    let masks := map (fun src => map (fun e => pyval_eqb e src) s) to_replace in
    Ok (fold_left (fun acc (md : list bool * pyval) => putmask (fst md) (snd md) acc)
          (combine masks value) s)
  else Raise ValueError.

(** [cluster_som(pixel_mat, weights)] for a frame that has rows ([apply] on
    an empty frame takes another path in pandas, which is not modelled). *)
Definition cluster_som (pixel_mat : DataFrame) (weights : grid)
  : result (list pyval) :=
  coords <- mapM (fun row => winner row weights) (df_values pixel_mat) ;;
  let cluster_coords := map (fun c => PyStr (str_of_coords c)) coords in
  let unique_cluster_coords := unique cluster_coords in
  let coord_to_label :=
    map (fun n => PyInt (Z.of_nat n)) (seq 0 (length unique_cluster_coords)) in
  replace unique_cluster_coords coord_to_label cluster_coords.

(* ================================================================== *)
(** ** The scalar arithmetic in binary64 *)
(* ================================================================== *)

Module Binary64.

(** [np.pi], the double nearest to pi. *)
Definition np_pi : float := 0x1.921fb54442d18p+1%float.

(** [float(z)] of a Python int, for [0 <= z < 2^53] (exact there). *)
Definition float_of_int (z : Z) : float := of_uint63 (Uint63.of_Z z).

Definition py_truediv (x y : float) : result float :=
  if PrimFloat.eqb y 0%float then Raise ZeroDivisionError
  else Ok (x / y)%float.

(** [decay_function(param, t, num_iters)] on doubles. *)
Definition decay_function (param : float) (t num_iters : Z) : result float :=
  half <- py_truediv (float_of_int num_iters) 2%float ;;
  q <- py_truediv (float_of_int t) half ;;
  py_truediv param (1 + q)%float.

(** Line 74 of [update]: [d = 2 * np.pi * sigma * sigma]. *)
Definition kernel_denominator (sigma : float) : float :=
  (2 * np_pi * sigma * sigma)%float.

(** The exponent of the kernel at the winning neuron itself, where the
    squared distance is [0.0]: [-np.power(0.0, 2) / d] with numpy's
    division. *)
Definition exponent_at_winner (d : float) : float := (- (0 * 0) / d)%float.

End Binary64.

(* ================================================================== *)
(** ** The object store: which arrays a call creates or overwrites *)
(* ================================================================== *)

(** Arrays live in a store and the program passes references to them.  An
    array is allocated at the next free address; [store] overwrites one in
    place (as [weights /= ...] does). *)
Inductive ndarray : Type :=
| Arr1 (v : vec)
| Arr2 (a : mat)
| Arr3 (w : grid).

Definition heap := list ndarray.
Definition ref := nat.

Definition M (A : Type) : Type := heap -> result A * heap.

Definition ret {A : Type} (a : A) : M A := fun h => (Ok a, h).

Definition bindM {A B : Type} (c : M A) (k : A -> M B) : M B :=
  fun h =>
    match c h with
    | (Ok a, h') => k a h'
    | (Raise e, h') => (Raise e, h')
    end.

Definition lift {A : Type} (r : result A) : M A := fun h => (r, h).

Declare Scope store_scope.
Delimit Scope store_scope with store.
Notation "x <~ c ;; k" := (bindM c (fun x => k))
  (at level 61, c at next level, right associativity) : store_scope.

Definition alloc (a : ndarray) : M ref := fun h => (Ok (length h), h ++ [a]).

Definition load (l : ref) : M ndarray :=
  fun h =>
    match nth_error h l with
    | Some a => (Ok a, h)
    | None => (Raise KeyError, h)
    end.

Fixpoint overwrite (l : ref) (a : ndarray) (h : heap) : heap :=
  match h, l with
  | [], _ => []
  | _ :: h', O => a :: h'
  | b :: h', S l' => b :: overwrite l' a h'
  end.

Definition store (l : ref) (a : ndarray) : M unit :=
  fun h => (Ok tt, overwrite l a h).

Definition as_vec (a : ndarray) : result vec :=
  match a with Arr1 v => Ok v | _ => Raise TypeError end.
Definition as_mat (a : ndarray) : result mat :=
  match a with Arr2 m => Ok m | _ => Raise TypeError end.
Definition as_grid (a : ndarray) : result grid :=
  match a with Arr3 w => Ok w | _ => Raise TypeError end.

Definition load_vec (l : ref) : M vec :=
  (a <~ load l ;; lift (as_vec a))%store.
Definition load_mat (l : ref) : M mat :=
  (a <~ load l ;; lift (as_mat a))%store.
Definition load_grid (l : ref) : M grid :=
  (a <~ load l ;; lift (as_grid a))%store.

(** [winner] on references: the difference array and the activation map
    are new arrays. *)
Definition winner_h (sample weights : ref) : M (nat * nat) :=
  (s <~ load_vec sample ;;
   w <~ load_grid weights ;;
   diff <~ lift (np_subtract s w) ;;
   l_diff <~ alloc (Arr3 diff) ;;
   d <~ load_grid l_diff ;;
   l_act <~ alloc (Arr2 (np_linalg_norm d)) ;;
   activation_map <~ load_mat l_act ;;
   idx <~ lift (argmin activation_map) ;;
   lift (np_unravel_index idx (shape activation_map)))%store.

(** [update] on references: every intermediate array and the result are new
    arrays; [x_mesh.T] and [y_mesh.T] are views that are only read. *)
Definition update_h (sample weights : ref) (winning_coords : nat * nat)
  (sigma learning_rate : R) (x_mesh y_mesh : ref) : M ref :=
  (let d := (2 * PI * sigma * sigma)%R in
   xm <~ load_mat x_mesh ;;
   cx <~ lift (getitem (transpose xm) winning_coords) ;;
   l_ax <~ alloc (Arr2 (map2d (fun v => exp ((- ((v - cx) ^ 2)) / d))%R xm)) ;;
   ym <~ load_mat y_mesh ;;
   cy <~ lift (getitem (transpose ym) winning_coords) ;;
   l_ay <~ alloc (Arr2 (map2d (fun v => exp ((- ((v - cy) ^ 2)) / d))%R ym)) ;;
   ax <~ load_mat l_ax ;;
   ay <~ load_mat l_ay ;;
   axay <~ lift (np_multiply ax ay) ;;
   l_g <~ alloc (Arr2 (map2d (fun v => v * learning_rate)%R (transpose axay))) ;;
   s <~ load_vec sample ;;
   w <~ load_grid weights ;;
   diff <~ lift (np_subtract s w) ;;
   l_diff <~ alloc (Arr3 diff) ;;
   g <~ load_mat l_g ;;
   df <~ load_grid l_diff ;;
   delta <~ lift (np_einsum g df) ;;
   l_delta <~ alloc (Arr3 delta) ;;
   w' <~ load_grid weights ;;
   dl <~ load_grid l_delta ;;
   new_weights <~ lift (np_add w' dl) ;;
   alloc (Arr3 new_weights))%store.

(** Lines 114-115 on references: [rand(...) * 2 - 1] is a new array, which
    [weights /= ...] then overwrites in place. *)
Definition initial_weights_h (rnd : ref) : M ref :=
  (r <~ load_grid rnd ;;
   weights <~ alloc (Arr3 (map (map (map (fun v => v * 2 - 1)%R)) r)) ;;
   w <~ load_grid weights ;;
   _ <~ store weights
          (Arr3 (map (map (fun p : vec => map (fun v => v / norm p)%R p)) w)) ;;
   ret weights)%store.

(** [mapM] in the store monad. *)
Fixpoint mapM_h {A B : Type} (f : A -> M B) (l : list A) : M (list B) :=
  match l with
  | [] => ret []
  | a :: l' => (b <~ f a ;; bs <~ mapM_h f l' ;; ret (b :: bs))%store
  end.

(** [cluster_som] on a reference to the weights: every row is copied into a
    new array ([np.array(list(row.values))]) and handed to [winner]. *)
Definition cluster_som_h (pixel_mat : DataFrame) (weights : ref)
  : M (list pyval) :=
  (coords <~ mapM_h (fun row => s <~ alloc (Arr1 row) ;; winner_h s weights)
                    (df_values pixel_mat) ;;
   let cluster_coords := map (fun c => PyStr (str_of_coords c)) coords in
   let unique_cluster_coords := unique cluster_coords in
   let coord_to_label :=
     map (fun n => PyInt (Z.of_nat n)) (seq 0 (length unique_cluster_coords)) in
   lift (replace unique_cluster_coords coord_to_label cluster_coords))%store.

(* ================================================================== *)
(** ** Notions the statements use *)
(* ================================================================== *)

(** Euclidean distance between two vectors of the same length. *)
Definition euclidean_distance (a b : vec) : R :=
  sqrt (sum_list (map (fun p => Rsqr (fst p - snd p)) (combine a b))).

(** The table of the distances from [sample] to every prototype. *)
Definition distance_map (sample : vec) (w : grid) : mat :=
  map (map (euclidean_distance sample)) w.


(** [i] is the index of the first occurrence of the minimum of [l]. *)
Definition first_min (l : list R) (i : nat) : Prop :=
  i < length l /\
  (forall j, j < length l -> (nth i l 0 <= nth j l 0)%R) /\
  (forall j, j < i -> (nth i l 0 < nth j l 0)%R).

(** Two array lengths that numpy broadcasts against each other. *)
Definition broadcastable (n m : nat) : Prop := n = m \/ n = 1 \/ m = 1.

(** Elementwise combination of two lists of the same length. *)
Definition zip_with {A B C : Type} (f : A -> B -> C) (a : list A) (b : list B)
  : list C :=
  map (fun p => f (fst p) (snd p)) (combine a b).

(** The Gaussian neighbourhood weight of neuron [(x, y)] for the winner
    [(wx, wy)], as the specification writes it. *)
Definition neighbourhood_weight (sigma learning_rate : R) (wx wy x y : nat) : R :=
  let d := (2 * PI * sigma ^ 2)%R in
  (exp (- (INR x - INR wx) ^ 2 / d) * exp (- (INR y - INR wy) ^ 2 / d)
   * learning_rate)%R.

(** [h'] is [h] with new arrays allocated after it: every array of [h] is
    still there, unchanged. *)
Definition extends (h h' : heap) : Prop := exists ext, h' = h ++ ext.

(** A computation that only allocates: it overwrites no array. *)
Definition alloc_only {A : Type} (c : M A) : Prop :=
  forall h, extends h (snd (c h)).

(** A computation whose result, when it returns one, is a reference that
    was not in use before. *)
Definition returns_fresh (c : M ref) : Prop :=
  forall h l', fst (c h) = Ok l' -> length h <= l'.

(** Whether the character [c] occurs in [s]. *)
Fixpoint contains (c : ascii) (s : string) : bool :=
  match s with
  | EmptyString => false
  | String a s' => Ascii.eqb a c || contains c s'
  end.

(** The position of the first occurrence of [v] in [l]. *)
Fixpoint index_of (v : pyval) (l : list pyval) : nat :=
  match l with
  | [] => 0
  | x :: l' => if pyval_eqb v x then 0 else S (index_of v l')
  end.

(** What [replace] makes of one entry: [orig] is the entry of the original
    Series, [cur] its current value. *)
Definition relabel (pairs : list (pyval * pyval)) (orig cur : pyval) : pyval :=
  fold_left (fun c (sd : pyval * pyval) =>
               if pyval_eqb orig (fst sd) then snd sd else c) pairs cur.

Definition coord_eq_dec (a b : nat * nat) : {a = b} + {a <> b}.
Proof. decide equality; apply Nat.eq_dec. Defined.

(** The key under which [cluster_som] files a winning coordinate. *)
Definition coord_key (c : nat * nat) : pyval := PyStr (str_of_coords c).

(** The label of every row: the position of its key among the distinct
    keys. *)
Definition labels_of (coords : list (nat * nat)) : list nat :=
  map (fun c => index_of (coord_key c) (unique (map coord_key coords))) coords.

(* ================================================================== *)
(** * Properties *)
(* ================================================================== *)

(** ** The error monad and lists *)

Lemma mapM_Forall2 {A B : Type} (f : A -> result B) (l : list A) (bs : list B) :
  mapM f l = Ok bs <-> Forall2 (fun a b => f a = Ok b) l bs.
Proof.
  revert bs; induction l as [|a l IH]; intros bs; simpl.
  - split; intros H.
    + injection H as <-. constructor.
    + inversion H. reflexivity.
  - split; intros H.
    + destruct (f a) as [b|e] eqn:Ef; simpl in H; [|discriminate].
      destruct (mapM f l) as [bs'|e] eqn:Em; simpl in H; [|discriminate].
      injection H as <-. constructor; [assumption|]. apply IH. reflexivity.
    + inversion H as [|a' b l' bs' Hab Hl]; subst.
      rewrite Hab. simpl. apply IH in Hl. rewrite Hl. reflexivity.
Qed.

Lemma mapM_pure {A B : Type} (f : A -> result B) (g : A -> B) (l : list A) :
  Forall (fun a => f a = Ok (g a)) l -> mapM f l = Ok (map g l).
Proof.
  induction 1 as [|a l Ha _ IH]; simpl; [reflexivity|].
  rewrite Ha, IH. reflexivity.
Qed.

Lemma mapM_raise {A B : Type} (f : A -> result B) (l : list A) (a : A) (e : exn) :
  In a l -> f a = Raise e -> exists e', mapM f l = Raise e'.
Proof.
  induction l as [|b l IH]; simpl; [contradiction|].
  intros [->|Hin] Hf.
  - rewrite Hf. eexists; reflexivity.
  - destruct (f b); simpl; [|eexists; reflexivity].
    destruct (IH Hin Hf) as [e' ->]. eexists; reflexivity.
Qed.

Lemma Forall2_nth_iff {A B : Type} (P : A -> B -> Prop) (l : list A) (l' : list B)
  (da : A) (db : B) :
  Forall2 P l l' <->
  length l = length l' /\ forall i, i < length l -> P (nth i l da) (nth i l' db).
Proof.
  split.
  - induction 1 as [|a b l l' Hab _ [IHlen IH]]; simpl.
    + split; [reflexivity|]. intros i Hi. lia.
    + split; [lia|]. intros [|i] Hi; [assumption|]. apply IH. lia.
  - revert l'. induction l as [|a l IH]; intros [|b l'] [Hlen H]; simpl in *;
      try discriminate; constructor.
    + apply (H 0). lia.
    + apply IH. split; [lia|]. intros i Hi. apply (H (S i)). lia.
Qed.

(** [zip_with]-style closed form of an elementwise operation. *)
Lemma bcast_same_length {A B C : Type} (f : A -> B -> result C)
  (a : list A) (b : list B) :
  length a = length b ->
  bcast f a b = mapM (fun p => f (fst p) (snd p)) (combine a b).
Proof.
  intros H. unfold bcast. rewrite H, Nat.eqb_refl. reflexivity.
Qed.


(** ** Flattened arrays *)

Lemma length_concat_uniform {A : Type} (a : list (list A)) (m : nat) :
  Forall (fun r => length r = m) a -> length (concat a) = length a * m.
Proof.
  induction 1 as [|r a Hr _ IH]; simpl; [reflexivity|].
  rewrite length_app, IH, Hr. reflexivity.
Qed.


(** ** argmin *)

Lemma argmin_from_first_min (l pre : list R) (best_i : nat) (best : R) :
  best_i < length pre ->
  nth best_i pre 0%R = best ->
  (forall j, j < length pre -> (best <= nth j pre 0)%R) ->
  (forall j, j < best_i -> (best < nth j pre 0)%R) ->
  first_min (pre ++ l) (argmin_from best_i best (length pre) l).
Proof.
  revert pre best_i best. induction l as [|v l IH]; intros pre bi b Hbi Hb Hle Hlt.
  - simpl. rewrite app_nil_r. subst b. repeat split; assumption.
  - simpl. replace (pre ++ v :: l) with ((pre ++ [v]) ++ l)
      by (rewrite <- app_assoc; reflexivity).
    replace (S (length pre)) with (length (pre ++ [v]))
      by (rewrite length_app; simpl; lia).
    destruct (Rlt_dec v b) as [Hv|Hv].
    + apply IH.
      * rewrite length_app; simpl; lia.
      * rewrite app_nth2 by lia. rewrite Nat.sub_diag. reflexivity.
      * intros j Hj. rewrite length_app in Hj; simpl in Hj.
        destruct (Nat.eq_dec j (length pre)) as [->|Hne].
        -- rewrite app_nth2 by lia. rewrite Nat.sub_diag. simpl. lra.
        -- rewrite app_nth1 by lia. specialize (Hle j ltac:(lia)). lra.
      * intros j Hj. rewrite app_nth1 by lia. specialize (Hle j Hj). lra.
    + apply IH.
      * rewrite length_app; simpl; lia.
      * rewrite app_nth1 by lia. assumption.
      * intros j Hj. rewrite length_app in Hj; simpl in Hj.
        destruct (Nat.eq_dec j (length pre)) as [->|Hne].
        -- rewrite app_nth2 by lia. rewrite Nat.sub_diag. simpl. lra.
        -- rewrite app_nth1 by lia. apply Hle. lia.
      * intros j Hj. rewrite app_nth1 by lia. apply Hlt. assumption.
Qed.

Lemma argmin_first_min (a : mat) :
  concat a <> [] -> exists i, argmin a = Ok i /\ first_min (concat a) i.
Proof.
  unfold argmin. destruct (concat a) as [|v l]; [congruence|]. intros _.
  eexists; split; [reflexivity|].
  apply (argmin_from_first_min l [v] 0 v); simpl.
  - lia.
  - reflexivity.
  - intros [|j] Hj; [lra|lia].
  - intros j Hj; lia.
Qed.

(** ** Shapes *)

Lemma has_shape_cell (X Y C : nat) (w : grid) (x y : nat) :
  has_shape X Y C w -> x < X -> y < Y ->
  length (nth x w []) = Y /\ length (cell w x y) = C.
Proof.
  intros [Hlen Hrows] Hx Hy. rewrite Forall_forall in Hrows.
  destruct (Hrows (nth x w [])) as [HY HC]; [apply nth_In; lia|].
  split; [assumption|]. rewrite Forall_forall in HC.
  apply HC. unfold cell. apply nth_In. lia.
Qed.

Lemma has_shape_intro (X Y C : nat) (w : grid) :
  length w = X ->
  (forall x, x < X -> length (nth x w []) = Y) ->
  (forall x y, x < X -> y < Y -> length (cell w x y) = C) ->
  has_shape X Y C w.
Proof.
  intros Hlen HY HC. split; [assumption|]. rewrite Forall_forall.
  intros row Hrow. destruct (In_nth _ _ [] Hrow) as [x [Hx <-]].
  split; [apply HY; lia|]. rewrite Forall_forall. intros p Hp.
  destruct (In_nth _ _ [] Hp) as [y [Hy <-]].
  apply HC; [lia|]. rewrite <- (HY x); [assumption|lia].
Qed.

Lemma mat_shape_row (n m : nat) (a : mat) (i : nat) :
  mat_shape n m a -> i < n -> length (nth i a []) = m.
Proof.
  intros [Hlen Hrows] Hi. rewrite Forall_forall in Hrows.
  apply Hrows, nth_In. lia.
Qed.

Lemma mat_shape_intro (n m : nat) (a : mat) :
  length a = n -> (forall i, i < n -> length (nth i a []) = m) -> mat_shape n m a.
Proof.
  intros Hlen H. split; [assumption|]. rewrite Forall_forall. intros r Hr.
  destruct (In_nth _ _ [] Hr) as [i [Hi <-]]. apply H. lia.
Qed.

Lemma shape_mat_shape (n m : nat) (a : mat) :
  mat_shape n m a -> 1 <= n -> shape a = (n, m).
Proof.
  intros [Hlen Hrows] Hn. unfold shape. rewrite Hlen. f_equal.
  destruct a as [|r a]; simpl in *; [lia|]. inversion Hrows; assumption.
Qed.

(** ** np.subtract and the activation map *)

Lemma bcast_lift2_ok_iff (f : R -> R -> R) (a b : list R) :
  is_ok (bcast (lift2 f) a b) = true <-> broadcastable (length a) (length b).
Proof.
  unfold bcast, broadcastable.
  destruct (Nat.eqb_spec (length a) (length b)) as [E|E].
  - split; [intros _; left; assumption|]. intros _.
    rewrite (mapM_pure _ (fun p => f (fst p) (snd p))); [reflexivity|].
    apply Forall_forall. intros; reflexivity.
  - assert (Hpure1 : forall x (l : list R), is_ok (mapM (lift2 f x) l) = true).
    { intros x l. rewrite (mapM_pure _ (f x)); [reflexivity|].
      apply Forall_forall. intros; reflexivity. }
    assert (Hpure2 : forall y (l : list R),
              is_ok (mapM (fun x => lift2 f x y) l) = true).
    { intros y l. rewrite (mapM_pure _ (fun x => f x y)); [reflexivity|].
      apply Forall_forall. intros; reflexivity. }
    destruct a as [|x [|x' a]]; destruct b as [|y [|y' b]]; simpl in E |- *;
      try (exfalso; apply E; reflexivity).
    + split; [intros _; right; right; reflexivity | intros _; reflexivity].
    + split; [intros H; discriminate H | intros [H|[H|H]]; discriminate H].
    + split; [intros _; right; left; reflexivity | intros _; reflexivity].
    + split; [intros _; right; left; reflexivity | intros _].
      apply (Hpure1 x (y :: y' :: b)).
    + split; [intros H; discriminate H | intros [H|[H|H]]; discriminate H].
    + split; [intros _; right; right; reflexivity | intros _].
      apply (Hpure2 y (x :: x' :: a)).
    + split; [intros H; discriminate H | intros [H|[H|H]]; try discriminate H].
      exfalso. apply E. exact H.
Qed.

Lemma bcast_lift2_same (f : R -> R -> R) (a b : list R) :
  length a = length b ->
  bcast (lift2 f) a b = Ok (map (fun p => f (fst p) (snd p)) (combine a b)).
Proof.
  intros H. rewrite bcast_same_length by assumption.
  apply mapM_pure, Forall_forall. intros; reflexivity.
Qed.

Lemma norm_sub_distance (a b : list R) :
  norm (map (fun p => fst p - snd p)%R (combine a b)) = euclidean_distance a b.
Proof.
  unfold norm, euclidean_distance. rewrite map_map. reflexivity.
Qed.

(** With matching channel counts the difference array is the elementwise
    difference, prototype by prototype. *)
Lemma np_subtract_same (X Y C : nat) (w : grid) (sample : vec) :
  has_shape X Y C w -> length sample = C ->
  np_subtract sample w =
  Ok (map (map (fun p => map (fun q => fst q - snd q)%R (combine sample p))) w).
Proof.
  intros [_ Hrows] Hs. unfold np_subtract.
  apply mapM_pure. rewrite Forall_forall in *. intros row Hrow.
  apply mapM_pure. destruct (Hrows row Hrow) as [_ Hps].
  rewrite Forall_forall in *. intros p Hp.
  apply bcast_lift2_same. rewrite (Hps p Hp). assumption.
Qed.

(** Whatever the broadcast does to the channels, the difference array has
    one vector per neuron. *)
Lemma np_subtract_rows (sample : vec) (w diff : grid) :
  np_subtract sample w = Ok diff ->
  length diff = length w /\
  forall x, length (nth x diff []) = length (nth x w []).
Proof.
  unfold np_subtract. rewrite mapM_Forall2.
  rewrite (Forall2_nth_iff _ _ _ [] []). intros [Hlen H].
  split; [symmetry; assumption|]. intros x.
  destruct (Nat.lt_ge_cases x (length w)) as [Hx|Hx].
  - specialize (H x Hx). rewrite mapM_Forall2 in H.
    apply Forall2_length in H. symmetry; assumption.
  - rewrite !nth_overflow by lia. reflexivity.
Qed.

Lemma np_linalg_norm_shape (X Y : nat) (diff : grid) :
  length diff = X -> (forall x, x < X -> length (nth x diff []) = Y) ->
  mat_shape X Y (np_linalg_norm diff).
Proof.
  intros Hlen H. unfold np_linalg_norm. apply mat_shape_intro.
  - rewrite length_map. assumption.
  - intros i Hi. change (@nil R) with (map norm []).
    rewrite map_nth, length_map. apply H. assumption.
Qed.

Lemma np_subtract_ok_iff (X Y C : nat) (w : grid) (sample : vec) :
  has_shape X Y C w -> 1 <= X -> 1 <= Y ->
  (is_ok (np_subtract sample w) = true <-> broadcastable (length sample) C).
Proof.
  intros Hw HX HY. destruct (has_shape_cell X Y C w 0 0 Hw HX HY) as [Hrow Hcell].
  assert (Hin : In (cell w 0 0) (nth 0 w [])) by (apply nth_In; lia).
  assert (Hin' : In (nth 0 w []) w) by (apply nth_In; destruct Hw; lia).
  split.
  - intros Hok. rewrite <- Hcell. apply (bcast_lift2_ok_iff Rminus).
    destruct (bcast (lift2 Rminus) sample (cell w 0 0)) as [v|e] eqn:E;
      [reflexivity|].
    destruct (mapM_raise (bcast (lift2 Rminus) sample) _ _ _ Hin E) as [e1 E1].
    destruct (mapM_raise (mapM (bcast (lift2 Rminus) sample)) _ _ _ Hin' E1)
      as [e2 E2].
    unfold np_subtract in Hok. rewrite E2 in Hok. discriminate.
  - intros Hb.
    assert (Hall : forall p, length p = C ->
              exists v, bcast (lift2 Rminus) sample p = Ok v).
    { intros p Hp. rewrite <- Hp in Hb. apply (bcast_lift2_ok_iff Rminus) in Hb.
      destruct (bcast (lift2 Rminus) sample p) as [v|e]; [|discriminate].
      eexists; reflexivity. }
    destruct Hw as [_ Hrows]. unfold np_subtract.
    assert (Hrow_ok : forall row, In row w ->
              exists r, mapM (bcast (lift2 Rminus) sample) row = Ok r).
    { intros row Hr. rewrite Forall_forall in Hrows.
      destruct (Hrows row Hr) as [_ Hps]. clear - Hps Hall.
      induction Hps as [|p row Hp _ IH]; simpl; [eexists; reflexivity|].
      destruct (Hall p Hp) as [v ->]. destruct IH as [r ->].
      eexists; reflexivity. }
    clear - Hrow_ok. induction w as [|row w IH]; simpl; [reflexivity|].
    destruct (Hrow_ok row) as [r ->]; [left; reflexivity|]. simpl.
    destruct (mapM (mapM (bcast (lift2 Rminus) sample)) w) eqn:E.
    + reflexivity.
    + exfalso. assert (H : is_ok (Raise (A:=list (list (list R))) e) = true).
      { apply IH. intros row' Hr'. apply Hrow_ok. right. assumption. }
      discriminate H.
Qed.

(** ** winner *)

Lemma winner_of_diff (X Y : nat) (sample : vec) (w diff : grid) :
  np_subtract sample w = Ok diff ->
  mat_shape X Y (np_linalg_norm diff) -> 1 <= X -> 1 <= Y ->
  exists idx,
    winner sample w = Ok (idx / Y, idx mod Y) /\
    idx < X * Y /\
    first_min (concat (np_linalg_norm diff)) idx.
Proof.
  intros Hd Hshape HX HY. unfold winner. rewrite Hd. cbn [bind].
  pose proof (length_concat_uniform _ _ (proj2 Hshape)) as Hlen.
  rewrite (proj1 Hshape) in Hlen.
  destruct (argmin_first_min (np_linalg_norm diff)) as [idx [Harg Hmin]].
  { intros E. rewrite E in Hlen. simpl in Hlen. nia. }
  rewrite Harg. cbn [bind]. rewrite (shape_mat_shape _ _ _ Hshape HX).
  assert (Hidx : idx < X * Y) by (destruct Hmin as [H _]; lia).
  unfold np_unravel_index. destruct (Nat.ltb_spec idx (X * Y)); [|lia].
  exists idx. repeat split; try assumption; apply Hmin.
Qed.

Lemma unravel_bounds (X Y idx : nat) :
  idx < X * Y -> idx / Y < X /\ idx mod Y < Y.
Proof.
  intros H. assert (Y <> 0) by nia. split.
  - apply Nat.Div0.div_lt_upper_bound. lia.
  - apply Nat.mod_upper_bound. assumption.
Qed.


Lemma winner_in_bounds (X Y C : nat) (sample : vec) (w : grid) (c : nat * nat) :
  has_shape X Y C w -> winner sample w = Ok c -> fst c < X /\ snd c < Y.
Proof.
  intros Hw Hwin. unfold winner in Hwin.
  destruct (np_subtract sample w) as [diff|e] eqn:Hd; simpl in Hwin;
    [|discriminate].
  destruct (argmin (np_linalg_norm diff)) as [idx|e] eqn:Ha; simpl in Hwin;
    [|discriminate].
  destruct (np_subtract_rows _ _ _ Hd) as [Hlen Hrows].
  assert (Hshape : mat_shape X Y (np_linalg_norm diff)).
  { apply np_linalg_norm_shape.
    - rewrite Hlen. apply Hw.
    - intros x Hx. rewrite Hrows.
      destruct Hw as [HlenW HrowsW]. rewrite Forall_forall in HrowsW.
      apply HrowsW, nth_In. lia. }
  unfold shape, np_unravel_index in Hwin.
  destruct (Nat.ltb_spec idx
              (length (np_linalg_norm diff) * length (hd [] (np_linalg_norm diff))))
    as [Hlt|Hge]; [|discriminate].
  injection Hwin as <-. simpl.
  assert (HX : 1 <= X).
  { destruct Hshape as [HlenA _]. rewrite HlenA in Hlt. nia. }
  rewrite (proj1 Hshape) in Hlt.
  assert (Hhd : length (hd [] (np_linalg_norm diff)) = Y).
  { pose proof (shape_mat_shape _ _ _ Hshape HX) as Hs. unfold shape in Hs.
    injection Hs as _ Hs. exact Hs. }
  rewrite Hhd in *. apply unravel_bounds. assumption.
Qed.

Lemma activation_map_distance (X Y C : nat) (w : grid) (sample : vec) :
  has_shape X Y C w -> length sample = C ->
  np_subtract sample w =
    Ok (map (map (fun p => map (fun q => fst q - snd q)%R (combine sample p))) w) /\
  np_linalg_norm
    (map (map (fun p => map (fun q => fst q - snd q)%R (combine sample p))) w)
  = distance_map sample w.
Proof.
  intros Hw Hs. split; [apply (np_subtract_same X Y C); assumption|].
  unfold np_linalg_norm, distance_map. rewrite map_map.
  apply map_ext. intros row. rewrite map_map. apply map_ext. intros p.
  apply norm_sub_distance.
Qed.

Lemma distance_map_shape (X Y C : nat) (w : grid) (sample : vec) :
  has_shape X Y C w -> mat_shape X Y (distance_map sample w).
Proof.
  intros Hw. unfold distance_map. apply mat_shape_intro.
  - rewrite length_map. apply Hw.
  - intros x Hx. change (@nil R) with (map (euclidean_distance sample) []).
    rewrite map_nth, length_map.
    destruct Hw as [Hlen Hrows]. rewrite Forall_forall in Hrows.
    apply Hrows, nth_In. lia.
Qed.



(** The winner on a grid with matching channel count: the coordinate of
    the first minimum of the distance table in row-major order. *)
Lemma winner_first_min (X Y C : nat) (w : grid) (sample : vec) :
  has_shape X Y C w -> length sample = C -> 1 <= X -> 1 <= Y ->
  exists idx,
    winner sample w = Ok (idx / Y, idx mod Y) /\
    idx < X * Y /\
    first_min (concat (distance_map sample w)) idx.
Proof.
  intros Hw Hs HX HY.
  destruct (activation_map_distance X Y C w sample Hw Hs) as [Hd Hact].
  rewrite <- Hact.
  apply (winner_of_diff X Y sample w _ Hd); try assumption.
  rewrite Hact. apply (distance_map_shape X Y C). assumption.
Qed.

(** ** Elementwise operations *)

Lemma length_zip_with {A B C : Type} (f : A -> B -> C) (a : list A) (b : list B) :
  length a = length b -> length (zip_with f a b) = length a.
Proof.
  intros H. unfold zip_with. rewrite length_map, length_combine. lia.
Qed.

Lemma nth_zip_with {A B C : Type} (f : A -> B -> C) (a : list A) (b : list B)
  (i : nat) (da : A) (db : B) (dc : C) :
  length a = length b -> i < length a ->
  nth i (zip_with f a b) dc = f (nth i a da) (nth i b db).
Proof.
  intros Hlen Hi. unfold zip_with.
  rewrite (nth_indep _ dc (f da db))
    by (rewrite length_map, length_combine; lia).
  rewrite (map_nth (fun p => f (fst p) (snd p)) (combine a b) (da, db)).
  rewrite combine_nth by assumption. reflexivity.
Qed.

Lemma bcast_pure {A B C : Type} (f : A -> B -> result C) (h : A -> B -> C)
  (a : list A) (b : list B) (da : A) (db : B) :
  length a = length b ->
  (forall i, i < length a ->
     f (nth i a da) (nth i b db) = Ok (h (nth i a da) (nth i b db))) ->
  bcast f a b = Ok (zip_with h a b).
Proof.
  intros Hlen H. rewrite bcast_same_length by assumption.
  unfold zip_with. apply mapM_pure. apply Forall_forall.
  intros [x y] Hin. destruct (In_nth _ _ (da, db) Hin) as [i [Hi Hnth]].
  rewrite length_combine in Hi. rewrite combine_nth in Hnth by assumption.
  injection Hnth as <- <-. apply H. lia.
Qed.

Lemma bcast_lift2_zip (f : R -> R -> R) (a b : list R) :
  length a = length b -> bcast (lift2 f) a b = Ok (zip_with f a b).
Proof.
  intros H. apply (bcast_pure _ f a b 0%R 0%R H). intros; reflexivity.
Qed.

(** ** Matrices: entries, transposition, meshes *)

Lemma getitem_at2 (n m : nat) (a : mat) (i j : nat) :
  mat_shape n m a -> i < n -> j < m -> getitem a (i, j) = Ok (at2 a i j).
Proof.
  intros Ha Hi Hj. unfold getitem, at2. simpl.
  pose proof (mat_shape_row n m a i Ha Hi) as Hrow.
  destruct Ha as [Hlen _].
  rewrite (nth_error_nth' a [] ) by lia.
  rewrite (nth_error_nth' _ 0%R) by lia. reflexivity.
Qed.

Lemma map2d_shape (f : R -> R) (n m : nat) (a : mat) :
  mat_shape n m a -> mat_shape n m (map2d f a).
Proof.
  intros Ha. unfold map2d. apply mat_shape_intro.
  - rewrite length_map. apply Ha.
  - intros i Hi. change (@nil R) with (map f []).
    rewrite map_nth, length_map. apply (mat_shape_row n m); assumption.
Qed.

Lemma map2d_at2 (f : R -> R) (n m : nat) (a : mat) (i j : nat) :
  mat_shape n m a -> i < n -> j < m ->
  at2 (map2d f a) i j = f (at2 a i j).
Proof.
  intros Ha Hi Hj. unfold map2d, at2.
  change (@nil R) with (map f []). rewrite map_nth.
  rewrite (nth_indep _ 0%R (f 0%R)).
  - apply map_nth.
  - rewrite length_map, (mat_shape_row n m a i Ha Hi). assumption.
Qed.

Lemma transpose_shape (n m : nat) (a : mat) :
  mat_shape n m a -> 1 <= n -> mat_shape m n (transpose a).
Proof.
  intros Ha Hn. pose proof (shape_mat_shape n m a Ha Hn) as Hs.
  unfold shape in Hs. injection Hs as Hlen Hhd.
  unfold transpose. rewrite Hhd. apply mat_shape_intro.
  - rewrite length_map, length_seq. reflexivity.
  - intros j Hj.
    rewrite (nth_indep _ [] (map (fun r => nth 0 r 0%R) a))
      by (rewrite length_map, length_seq; assumption).
    rewrite (map_nth (fun j => map (fun r => nth j r 0%R) a) (seq 0 m) 0 j).
    rewrite length_map. assumption.
Qed.

Lemma transpose_at2 (n m : nat) (a : mat) (i j : nat) :
  mat_shape n m a -> i < n -> j < m ->
  at2 (transpose a) j i = at2 a i j.
Proof.
  intros Ha Hi Hj. pose proof (shape_mat_shape n m a Ha ltac:(lia)) as Hs.
  unfold shape in Hs. injection Hs as Hlen Hhd.
  unfold transpose, at2. rewrite Hhd.
  rewrite (nth_indep _ [] (map (fun r => nth 0 r 0%R) a))
    by (rewrite length_map, length_seq; assumption).
  rewrite (map_nth (fun j => map (fun r => nth j r 0%R) a) (seq 0 m) 0 j).
  rewrite seq_nth by assumption. simpl.
  rewrite (nth_indep _ 0%R (nth j [] 0%R)) by (rewrite length_map; lia).
  rewrite (map_nth (fun r => nth j r 0%R) a [] i). reflexivity.
Qed.

Lemma meshgrid_shape (X Y : nat) :
  mat_shape Y X (fst (np_meshgrid (np_arange X) (np_arange Y))) /\
  mat_shape Y X (snd (np_meshgrid (np_arange X) (np_arange Y))).
Proof.
  unfold np_meshgrid, np_arange; simpl. split; apply mat_shape_intro;
    try (rewrite length_map, length_seq; reflexivity); intros i Hi.
  - rewrite (nth_indep _ [] ((fun _ => map INR (seq 0 X)) 0))
      by (rewrite length_map, length_seq; assumption).
    rewrite (map_nth (fun _ => map INR (seq 0 X)) (seq 0 Y) 0 i).
    rewrite length_map, length_seq. reflexivity.
  - rewrite (nth_indep _ [] ((fun y => map (fun _ => INR y) (seq 0 X)) 0))
      by (rewrite length_map, length_seq; assumption).
    rewrite (map_nth (fun y => map (fun _ => INR y) (seq 0 X)) (seq 0 Y) 0 i).
    rewrite length_map, length_seq. reflexivity.
Qed.

(** Entry [(i, j)] of the x mesh is the column index [j], of the y mesh the
    row index [i]. *)
Lemma meshgrid_at2 (X Y i j : nat) :
  i < Y -> j < X ->
  at2 (fst (np_meshgrid (np_arange X) (np_arange Y))) i j = INR j /\
  at2 (snd (np_meshgrid (np_arange X) (np_arange Y))) i j = INR i.
Proof.
  intros Hi Hj. unfold np_meshgrid, np_arange, at2; simpl. split.
  - rewrite (nth_indep _ [] ((fun _ => map INR (seq 0 X)) 0))
      by (rewrite length_map, length_seq; assumption).
    rewrite (map_nth (fun _ => map INR (seq 0 X)) (seq 0 Y) 0 i).
    rewrite (nth_indep _ 0%R (INR 0)) by (rewrite length_map, length_seq; lia).
    rewrite map_nth, seq_nth by assumption. reflexivity.
  - rewrite (nth_indep _ [] ((fun y => map (fun _ => INR y) (seq 0 X)) 0))
      by (rewrite length_map, length_seq; assumption).
    rewrite (map_nth (fun y => map (fun _ => INR y) (seq 0 X)) (seq 0 Y) 0 i).
    rewrite seq_nth by assumption. simpl.
    rewrite (nth_indep _ 0%R ((fun _ => INR i) 0))
      by (rewrite length_map, length_seq; lia).
    rewrite (map_nth (fun _ => INR i) (seq 0 X) 0 j). reflexivity.
Qed.

Lemma np_multiply_same (n m : nat) (a b : mat) :
  mat_shape n m a -> mat_shape n m b ->
  np_multiply a b = Ok (zip_with (zip_with Rmult) a b).
Proof.
  intros Ha Hb. unfold np_multiply.
  apply (bcast_pure _ (zip_with Rmult) a b [] []).
  - destruct Ha, Hb; lia.
  - intros i Hi. apply bcast_lift2_zip.
    rewrite (proj1 Ha) in Hi.
    rewrite (mat_shape_row n m a i Ha Hi), (mat_shape_row n m b i Hb Hi).
    reflexivity.
Qed.

Lemma zip2_shape (f : R -> R -> R) (n m : nat) (a b : mat) :
  mat_shape n m a -> mat_shape n m b ->
  mat_shape n m (zip_with (zip_with f) a b).
Proof.
  intros Ha Hb.
  assert (Hlen : length a = length b) by (destruct Ha, Hb; lia).
  apply mat_shape_intro.
  - rewrite length_zip_with by assumption. apply Ha.
  - intros i Hi.
    rewrite (nth_zip_with (zip_with f) a b i [] [] []) by (destruct Ha; lia).
    rewrite length_zip_with;
      rewrite (mat_shape_row n m a i Ha Hi); [reflexivity|].
    rewrite (mat_shape_row n m b i Hb Hi). reflexivity.
Qed.

Lemma zip2_at2 (f : R -> R -> R) (n m : nat) (a b : mat) (i j : nat) :
  mat_shape n m a -> mat_shape n m b -> i < n -> j < m ->
  at2 (zip_with (zip_with f) a b) i j = f (at2 a i j) (at2 b i j).
Proof.
  intros Ha Hb Hi Hj. unfold at2.
  assert (Hlen : length a = length b) by (destruct Ha, Hb; lia).
  rewrite (nth_zip_with (zip_with f) a b i [] [] []) by (destruct Ha; lia).
  apply nth_zip_with.
  - rewrite (mat_shape_row n m a i Ha Hi), (mat_shape_row n m b i Hb Hi).
    reflexivity.
  - rewrite (mat_shape_row n m a i Ha Hi). assumption.
Qed.

(** ** Weights-shaped arrays *)

Lemma has_shape_rows (X Y C : nat) (w : grid) (x : nat) :
  has_shape X Y C w -> x < X -> length (nth x w []) = Y.
Proof.
  intros [Hlen Hrows] Hx. rewrite Forall_forall in Hrows.
  apply Hrows, nth_In. lia.
Qed.

Lemma np_subtract_shape (X Y C : nat) (w : grid) (sample : vec) :
  has_shape X Y C w -> length sample = C ->
  has_shape X Y C (map (map (zip_with Rminus sample)) w).
Proof.
  intros Hw Hs. apply has_shape_intro.
  - rewrite length_map. apply Hw.
  - intros x Hx.
    replace (nth x (map (map (zip_with Rminus sample)) w) [])
      with (map (zip_with Rminus sample) (nth x w []))
      by (symmetry; apply (map_nth (map (zip_with Rminus sample)) w [] x)).
    rewrite length_map. apply (has_shape_rows X Y C); assumption.
  - intros x y Hx Hy. unfold cell.
    destruct (has_shape_cell X Y C w x y Hw Hx Hy) as [Hrow Hcell].
    unfold cell in Hcell.
    replace (nth x (map (map (zip_with Rminus sample)) w) [])
      with (map (zip_with Rminus sample) (nth x w []))
      by (symmetry; apply (map_nth (map (zip_with Rminus sample)) w [] x)).
    rewrite (nth_indep _ [] (zip_with Rminus sample []))
      by (rewrite length_map; lia).
    rewrite map_nth. rewrite length_zip_with; lia.
Qed.

Lemma np_subtract_at3 (X Y C : nat) (w : grid) (sample : vec) (x y k : nat) :
  has_shape X Y C w -> length sample = C -> x < X -> y < Y -> k < C ->
  at3 (map (map (zip_with Rminus sample)) w) x y k
  = (nth k sample 0 - at3 w x y k)%R.
Proof.
  intros Hw Hs Hx Hy Hk. unfold at3, cell.
  destruct (has_shape_cell X Y C w x y Hw Hx Hy) as [Hrow Hcell].
  unfold cell in Hcell.
  replace (nth x (map (map (zip_with Rminus sample)) w) [])
    with (map (zip_with Rminus sample) (nth x w []))
    by (symmetry; apply (map_nth (map (zip_with Rminus sample)) w [] x)).
  rewrite (nth_indep _ [] (zip_with Rminus sample []))
    by (rewrite length_map; lia).
  rewrite map_nth.
  apply nth_zip_with; lia.
Qed.

Lemma np_einsum_same (X Y C : nat) (g : mat) (a : grid) :
  mat_shape X Y g -> has_shape X Y C a ->
  np_einsum g a = Ok (zip_with (zip_with (fun s p => map (Rmult s) p)) g a).
Proof.
  intros Hg Ha. unfold np_einsum.
  apply (bcast_pure _ (zip_with (fun s p => map (Rmult s) p)) g a [] []).
  - destruct Hg, Ha; lia.
  - intros x Hx. rewrite (proj1 Hg) in Hx.
    apply (bcast_pure _ (fun s p => map (Rmult s) p) _ _ 0%R []).
    + rewrite (mat_shape_row X Y g x Hg Hx), (has_shape_rows X Y C a x Ha Hx).
      reflexivity.
    + intros; reflexivity.
Qed.

Lemma np_einsum_shape (X Y C : nat) (g : mat) (a : grid) :
  mat_shape X Y g -> has_shape X Y C a ->
  has_shape X Y C (zip_with (zip_with (fun s p => map (Rmult s) p)) g a).
Proof.
  intros Hg Ha.
  assert (Hlen : length g = length a) by (destruct Hg, Ha; lia).
  assert (Hrow : forall x, x < X ->
            nth x (zip_with (zip_with (fun s p => map (Rmult s) p)) g a) []
            = zip_with (fun s p => map (Rmult s) p) (nth x g []) (nth x a [])).
  { intros x Hx. apply nth_zip_with; destruct Hg; lia. }
  apply has_shape_intro.
  - rewrite length_zip_with by assumption. apply Hg.
  - intros x Hx. rewrite (Hrow x Hx), length_zip_with.
    + apply (mat_shape_row X Y); assumption.
    + rewrite (mat_shape_row X Y g x Hg Hx), (has_shape_rows X Y C a x Ha Hx).
      reflexivity.
  - intros x y Hx Hy. unfold cell. rewrite (Hrow x Hx).
    rewrite (nth_zip_with _ _ _ y 0%R [] []).
    + rewrite length_map.
      apply (has_shape_cell X Y C a x y Ha Hx Hy).
    + rewrite (mat_shape_row X Y g x Hg Hx), (has_shape_rows X Y C a x Ha Hx).
      reflexivity.
    + rewrite (mat_shape_row X Y g x Hg Hx). assumption.
Qed.

Lemma np_einsum_at3 (X Y C : nat) (g : mat) (a : grid) (x y k : nat) :
  mat_shape X Y g -> has_shape X Y C a -> x < X -> y < Y -> k < C ->
  at3 (zip_with (zip_with (fun s p => map (Rmult s) p)) g a) x y k
  = (at2 g x y * at3 a x y k)%R.
Proof.
  intros Hg Ha Hx Hy Hk. unfold at3, at2, cell.
  rewrite (nth_zip_with _ g a x [] [] []) by (destruct Hg, Ha; lia).
  rewrite (nth_zip_with _ _ _ y 0%R [] []).
  - destruct (has_shape_cell X Y C a x y Ha Hx Hy) as [_ Hcell].
    unfold cell in Hcell.
    rewrite (nth_indep _ 0%R (nth y (nth x g []) 0 * 0)%R)
      by (rewrite length_map; lia).
    apply (map_nth (Rmult (nth y (nth x g []) 0%R))).
  - rewrite (mat_shape_row X Y g x Hg Hx), (has_shape_rows X Y C a x Ha Hx).
    reflexivity.
  - rewrite (mat_shape_row X Y g x Hg Hx). assumption.
Qed.

Lemma np_add_same (X Y C : nat) (a b : grid) :
  has_shape X Y C a -> has_shape X Y C b ->
  np_add a b = Ok (zip_with (zip_with (zip_with Rplus)) a b).
Proof.
  intros Ha Hb. unfold np_add.
  apply (bcast_pure _ (zip_with (zip_with Rplus)) a b [] []).
  - destruct Ha, Hb; lia.
  - intros x Hx. rewrite (proj1 Ha) in Hx.
    apply (bcast_pure _ (zip_with Rplus) _ _ [] []).
    + rewrite (has_shape_rows X Y C a x Ha Hx), (has_shape_rows X Y C b x Hb Hx).
      reflexivity.
    + intros y Hy. rewrite (has_shape_rows X Y C a x Ha Hx) in Hy.
      apply bcast_lift2_zip.
      destruct (has_shape_cell X Y C a x y Ha Hx Hy) as [_ H1].
      destruct (has_shape_cell X Y C b x y Hb Hx Hy) as [_ H2].
      unfold cell in H1, H2. lia.
Qed.

Lemma np_add_shape (X Y C : nat) (a b : grid) :
  has_shape X Y C a -> has_shape X Y C b ->
  has_shape X Y C (zip_with (zip_with (zip_with Rplus)) a b).
Proof.
  intros Ha Hb.
  assert (Hlen : length a = length b) by (destruct Ha, Hb; lia).
  assert (Hrow : forall x, x < X ->
            nth x (zip_with (zip_with (zip_with Rplus)) a b) []
            = zip_with (zip_with Rplus) (nth x a []) (nth x b [])).
  { intros x Hx. apply nth_zip_with; destruct Ha; lia. }
  assert (Hrl : forall x, x < X -> length (nth x a []) = length (nth x b [])).
  { intros x Hx.
    rewrite (has_shape_rows X Y C a x Ha Hx), (has_shape_rows X Y C b x Hb Hx).
    reflexivity. }
  apply has_shape_intro.
  - rewrite length_zip_with by assumption. apply Ha.
  - intros x Hx. rewrite (Hrow x Hx), length_zip_with by (apply Hrl; assumption).
    apply (has_shape_rows X Y C); assumption.
  - intros x y Hx Hy. unfold cell. rewrite (Hrow x Hx).
    destruct (has_shape_cell X Y C a x y Ha Hx Hy) as [Hra H1].
    destruct (has_shape_cell X Y C b x y Hb Hx Hy) as [_ H2].
    unfold cell in H1, H2.
    rewrite (nth_zip_with _ _ _ y [] [] []) by (try apply Hrl; lia).
    rewrite length_zip_with by lia. assumption.
Qed.

Lemma np_add_at3 (X Y C : nat) (a b : grid) (x y k : nat) :
  has_shape X Y C a -> has_shape X Y C b -> x < X -> y < Y -> k < C ->
  at3 (zip_with (zip_with (zip_with Rplus)) a b) x y k
  = (at3 a x y k + at3 b x y k)%R.
Proof.
  intros Ha Hb Hx Hy Hk. unfold at3, cell.
  destruct (has_shape_cell X Y C a x y Ha Hx Hy) as [Hra H1].
  destruct (has_shape_cell X Y C b x y Hb Hx Hy) as [Hrb H2].
  unfold cell in H1, H2.
  rewrite (nth_zip_with _ a b x [] [] []) by (destruct Ha, Hb; lia).
  rewrite (nth_zip_with _ _ _ y [] [] []) by lia.
  apply nth_zip_with; lia.
Qed.

(** ** update *)

(** [x_mesh.T[winning_coords]] and [y_mesh.T[winning_coords]] are the two
    indices of the winning neuron. *)
Lemma mesh_lookup (X Y wx wy : nat) :
  wx < X -> wy < Y ->
  getitem (transpose (fst (np_meshgrid (np_arange X) (np_arange Y)))) (wx, wy)
  = Ok (INR wx) /\
  getitem (transpose (snd (np_meshgrid (np_arange X) (np_arange Y)))) (wx, wy)
  = Ok (INR wy).
Proof.
  intros Hwx Hwy. destruct (meshgrid_shape X Y) as [Hxm Hym].
  assert (HY : 1 <= Y) by lia.
  split.
  - rewrite (getitem_at2 X Y) by (try apply transpose_shape; assumption).
    rewrite (transpose_at2 Y X) by assumption.
    f_equal. apply (meshgrid_at2 X Y wy wx); assumption.
  - rewrite (getitem_at2 X Y) by (try apply transpose_shape; assumption).
    rewrite (transpose_at2 Y X) by assumption.
    f_equal. apply (meshgrid_at2 X Y wy wx); assumption.
Qed.

(** One call of [update] with the meshes of [train_som]: it returns, the
    result has the shape of the weights, and every entry is the old one
    moved towards the sample by the kernel value of its neuron. *)
Lemma update_entries (X Y C : nat) (w : grid) (sample : vec) (wx wy : nat)
  (sigma learning_rate : R) :
  has_shape X Y C w -> length sample = C -> wx < X -> wy < Y ->
  exists w',
    update sample w (wx, wy) sigma learning_rate
      (fst (np_meshgrid (np_arange X) (np_arange Y)))
      (snd (np_meshgrid (np_arange X) (np_arange Y))) = Ok w' /\
    has_shape X Y C w' /\
    forall x y k, x < X -> y < Y -> k < C ->
      at3 w' x y k =
      (at3 w x y k
       + exp ((- ((INR x - INR wx) ^ 2)) / (2 * PI * sigma * sigma))
         * exp ((- ((INR y - INR wy) ^ 2)) / (2 * PI * sigma * sigma))
         * learning_rate
         * (nth k sample 0 - at3 w x y k))%R.
Proof.
  intros Hw Hs Hwx Hwy.
  destruct (meshgrid_shape X Y) as [Hxm Hym].
  set (xm := fst (np_meshgrid (np_arange X) (np_arange Y))) in *.
  set (ym := snd (np_meshgrid (np_arange X) (np_arange Y))) in *.
  set (d := (2 * PI * sigma * sigma)%R).
  assert (HY : 1 <= Y) by lia.
  destruct (mesh_lookup X Y wx wy Hwx Hwy) as [Hcx Hcy].
  change (getitem (transpose xm) (wx, wy) = Ok (INR wx)) in Hcx.
  change (getitem (transpose ym) (wx, wy) = Ok (INR wy)) in Hcy.
  set (fx := (fun v => exp ((- ((v - INR wx) ^ 2)) / d))%R).
  set (fy := (fun v => exp ((- ((v - INR wy) ^ 2)) / d))%R).
  set (ax := map2d fx xm). set (ay := map2d fy ym).
  assert (Hax : mat_shape Y X ax) by (apply map2d_shape; assumption).
  assert (Hay : mat_shape Y X ay) by (apply map2d_shape; assumption).
  set (axay := zip_with (zip_with Rmult) ax ay).
  assert (Haxay : mat_shape Y X axay) by (apply zip2_shape; assumption).
  set (g := map2d (fun v => v * learning_rate)%R (transpose axay)).
  assert (Hg : mat_shape X Y g)
    by (apply map2d_shape, transpose_shape; assumption).
  set (diff := map (map (zip_with Rminus sample)) w).
  assert (Hdiff : has_shape X Y C diff)
    by (apply np_subtract_shape; assumption).
  set (delta := zip_with (zip_with (fun s p => map (Rmult s) p)) g diff).
  assert (Hdelta : has_shape X Y C delta)
    by (apply np_einsum_shape; assumption).
  exists (zip_with (zip_with (zip_with Rplus)) w delta).
  split; [|split].
  - unfold update. fold d. rewrite Hcx. cbn [bind]. rewrite Hcy. cbn [bind].
    fold fx fy ax ay.
    rewrite (np_multiply_same Y X ax ay Hax Hay). cbn [bind]. fold axay g.
    rewrite (np_subtract_same X Y C w sample Hw Hs). cbn [bind].
    change (map (map (fun p => map (fun q => fst q - snd q)%R (combine sample p))) w)
      with diff.
    rewrite (np_einsum_same X Y C g diff Hg Hdiff). cbn [bind]. fold delta.
    apply (np_add_same X Y C); assumption.
  - apply np_add_shape; assumption.
  - intros x y k Hx Hy Hk.
    rewrite (np_add_at3 X Y C) by assumption.
    unfold delta. rewrite (np_einsum_at3 X Y C) by assumption.
    unfold diff. rewrite (np_subtract_at3 X Y C) by assumption.
    unfold g. rewrite (map2d_at2 _ X Y) by (try apply transpose_shape; assumption).
    rewrite (transpose_at2 Y X) by assumption.
    unfold axay. rewrite (zip2_at2 Rmult Y X) by assumption.
    unfold ax, ay. rewrite !(map2d_at2 _ Y X) by assumption.
    destruct (meshgrid_at2 X Y y x Hy Hx) as [H1 H2].
    change (at2 xm y x = INR x) in H1. change (at2 ym y x = INR y) in H2.
    rewrite H1, H2. reflexivity.
Qed.

(** ** decay_function *)

Lemma decay_denominator_pos (t num_iters : Z) :
  (1 <= num_iters)%Z -> (0 <= t)%Z ->
  (0 < IZR num_iters / 2 /\ 1 <= 1 + IZR t / (IZR num_iters / 2))%R.
Proof.
  intros Hn Ht. apply IZR_le in Hn. apply IZR_le in Ht.
  assert (Hhalf : (0 < IZR num_iters / 2)%R) by lra.
  split; [assumption|].
  assert (0 <= IZR t / (IZR num_iters / 2))%R; [|lra].
  apply Rmult_le_pos; [assumption|].
  left. apply Rinv_0_lt_compat. assumption.
Qed.

Lemma decay_function_value (param : R) (t num_iters : Z) :
  (1 <= num_iters)%Z -> (0 <= t)%Z ->
  decay_function param t num_iters
  = Ok (param / (1 + IZR t / (IZR num_iters / 2)))%R.
Proof.
  intros Hn Ht. destruct (decay_denominator_pos t num_iters Hn Ht) as [H1 H2].
  unfold decay_function, py_truediv.
  destruct (Req_dec_T 2 0) as [E|_]; [lra|]. cbn [bind].
  destruct (Req_dec_T (IZR num_iters / 2) 0) as [E|_]; [lra|]. cbn [bind].
  destruct (Req_dec_T (1 + IZR t / (IZR num_iters / 2)) 0) as [E|_]; [lra|].
  reflexivity.
Qed.

(** ** The training loop *)

Lemma for_each_app {A St : Type} (body : St -> A -> result St) (l1 l2 : list A) (s : St) :
  for_each body (l1 ++ l2) s = (s' <- for_each body l1 s ;; for_each body l2 s').
Proof.
  revert s. induction l1 as [|a l1 IH]; intros s; simpl; [reflexivity|].
  destruct (body s a) as [s'|e]; simpl; [apply IH|reflexivity].
Qed.

Lemma for_each_map {A B St : Type} (body : St -> B -> result St) (f : A -> B)
  (l : list A) (s : St) :
  for_each body (map f l) s = for_each (fun s a => body s (f a)) l s.
Proof.
  revert s. induction l as [|a l IH]; intros s; simpl; [reflexivity|].
  destruct (body s (f a)); simpl; [apply IH|reflexivity].
Qed.

Lemma combine_seq_map {A : Type} (f : nat -> A) (a n : nat) :
  combine (seq a n) (map f (seq a n)) = map (fun t => (t, f t)) (seq a n).
Proof.
  revert a. induction n as [|n IH]; intros a; simpl; [reflexivity|].
  rewrite IH. reflexivity.
Qed.

(** [enumerate(np.arange(T) % n)] lists the pairs [(t, t mod n)] for
    [t = 0 .. T-1]. *)
Lemma enumerate_iter_rows (num_iters : Z) (n : nat) :
  enumerate (iter_rows num_iters n)
  = map (fun t => (t, t mod n)) (seq 0 (Z.to_nat num_iters)).
Proof.
  unfold enumerate, iter_rows, np_arange.
  rewrite length_map, length_seq. apply combine_seq_map.
Qed.

(** A loop over [0 .. n-1] whose body keeps an invariant and does not raise
    under it runs through a chain of [n + 1] states. *)
Lemma for_each_chain {St : Type} (step : St -> nat -> result St) (Inv : St -> Prop)
  (n : nat) (s0 : St) :
  Inv s0 ->
  (forall s t, t < n -> Inv s -> exists s', step s t = Ok s' /\ Inv s') ->
  exists g : nat -> St,
    g 0 = s0 /\
    (forall t, t < n -> step (g t) t = Ok (g (S t))) /\
    (forall t, t <= n -> Inv (g t)) /\
    for_each step (seq 0 n) s0 = Ok (g n).
Proof.
  intros H0. induction n as [|n IH]; intros Hstep.
  - exists (fun _ => s0). repeat split; try reflexivity.
    + intros t Ht; lia.
    + intros t _; assumption.
  - destruct IH as [g [Hg0 [Hgs [Hinv Hrun]]]].
    { intros s t Ht. apply Hstep. lia. }
    destruct (Hstep (g n) n) as [s' [Hs' Hinv']]; [lia|apply Hinv; lia|].
    exists (fun t => if t <=? n then g t else s').
    split; [|split; [|split]].
    + simpl. assumption.
    + intros t Ht. destruct (Nat.leb_spec t n) as [Hle|Hgt]; [|lia].
      destruct (Nat.leb_spec (S t) n) as [Hle'|Hgt'].
      * apply Hgs. lia.
      * assert (t = n) by lia. subst t. assumption.
    + intros t Ht. destruct (Nat.leb_spec t n); [apply Hinv; lia|assumption].
    + rewrite seq_S, for_each_app, Hrun. cbn [bind for_each Nat.add].
      rewrite Hs'. cbn [bind].
      destruct (Nat.leb_spec (S n) n); [lia|reflexivity].
Qed.

Lemma initial_weights_shape (X Y C : nat) (rnd : grid) :
  has_shape X Y C rnd -> has_shape X Y C (initial_weights rnd).
Proof.
  intros [Hlen Hrows]. unfold initial_weights. split.
  - rewrite !length_map. assumption.
  - rewrite !Forall_map. rewrite Forall_forall in *. intros row Hrow.
    destruct (Hrows row Hrow) as [HY HC]. rewrite !length_map.
    split; [assumption|]. rewrite !Forall_map. rewrite Forall_forall in *.
    intros p Hp. rewrite !length_map. apply HC. assumption.
Qed.

(** With the default index, [.loc] by label is the lookup by position. *)
Lemma get_loc_seq (a n i : nat) :
  i < n -> get_loc (map Z.of_nat (seq a n)) (Z.of_nat (a + i)) = Some i.
Proof.
  revert a i. induction n as [|n IH]; intros a i Hi; [lia|]. simpl.
  destruct i as [|i].
  - rewrite Nat.add_0_r, Z.eqb_refl. reflexivity.
  - destruct (Z.eqb_spec (Z.of_nat a) (Z.of_nat (a + S i))) as [E|_]; [lia|].
    replace (a + S i) with (S a + i) by lia.
    rewrite IH by lia. reflexivity.
Qed.

Lemma loc_range_index (pixel_mat : DataFrame) (i : nat) (sample : vec) :
  df_index pixel_mat = range_index (length (df_values pixel_mat)) ->
  nth_error (df_values pixel_mat) i = Some sample ->
  loc pixel_mat i = Ok sample.
Proof.
  intros Hidx Hs. unfold loc. rewrite Hidx. unfold range_index, np_arange.
  assert (Hi : i < length (df_values pixel_mat))
    by (apply nth_error_Some; congruence).
  pose proof (get_loc_seq 0 _ i Hi) as Hg. rewrite Nat.add_0_l in Hg.
  rewrite Hg, Hs. reflexivity.
Qed.

(** One pass through the loop body on a well-shaped grid. *)
Lemma train_step_ok (pixel_mat : DataFrame) (X Y C : nat) (num_iters : Z)
  (sigma learning_rate : R) (w : grid) (t : nat) :
  df_index pixel_mat = range_index (length (df_values pixel_mat)) ->
  df_values pixel_mat <> [] ->
  Forall (fun r => length r = C) (df_values pixel_mat) ->
  1 <= X -> 1 <= Y -> (1 <= num_iters)%Z -> has_shape X Y C w ->
  exists sample wc ds dl w',
    nth_error (df_values pixel_mat) (t mod length (df_values pixel_mat))
    = Some sample /\
    loc pixel_mat (t mod length (df_values pixel_mat)) = Ok sample /\
    winner sample w = Ok wc /\
    decay_function sigma (Z.of_nat t) num_iters = Ok ds /\
    decay_function learning_rate (Z.of_nat t) num_iters = Ok dl /\
    update sample w wc ds dl
      (fst (np_meshgrid (np_arange X) (np_arange Y)))
      (snd (np_meshgrid (np_arange X) (np_arange Y))) = Ok w' /\
    train_step pixel_mat num_iters sigma learning_rate
      (fst (np_meshgrid (np_arange X) (np_arange Y)))
      (snd (np_meshgrid (np_arange X) (np_arange Y))) w
      (t, t mod length (df_values pixel_mat)) = Ok w' /\
    has_shape X Y C w'.
Proof.
  intros Hidx Hne Hrows HX HY Hn Hw.
  set (N := length (df_values pixel_mat)).
  assert (Hrow : t mod N < N).
  { apply Nat.mod_upper_bound. unfold N.
    destruct (df_values pixel_mat); [congruence|simpl; lia]. }
  destruct (nth_error (df_values pixel_mat) (t mod N)) as [sample|] eqn:Hs;
    [|apply nth_error_None in Hs; unfold N in *; lia].
  pose proof (loc_range_index pixel_mat (t mod N) sample Hidx Hs) as Hloc.
  assert (Hlen : length sample = C).
  { rewrite Forall_forall in Hrows. apply Hrows.
    apply (nth_error_In _ _ Hs). }
  destruct (winner_first_min X Y C w sample Hw Hlen HX HY)
    as [idx [Hwin [Hidx' _]]].
  destruct (unravel_bounds X Y idx Hidx') as [Hbx Hby].
  pose proof (decay_function_value sigma (Z.of_nat t) num_iters Hn
                (Nat2Z.is_nonneg t)) as Hds.
  pose proof (decay_function_value learning_rate (Z.of_nat t) num_iters Hn
                (Nat2Z.is_nonneg t)) as Hdl.
  destruct (update_entries X Y C w sample (idx / Y) (idx mod Y)
              (sigma / (1 + IZR (Z.of_nat t) / (IZR num_iters / 2)))
              (learning_rate / (1 + IZR (Z.of_nat t) / (IZR num_iters / 2)))
              Hw Hlen Hbx Hby) as [w' [Hup [Hw' _]]].
  exists sample, (idx / Y, idx mod Y).
  exists (sigma / (1 + IZR (Z.of_nat t) / (IZR num_iters / 2)))%R.
  exists (learning_rate / (1 + IZR (Z.of_nat t) / (IZR num_iters / 2)))%R.
  exists w'.
  split; [reflexivity|]. split; [exact Hloc|]. split; [exact Hwin|].
  split; [exact Hds|]. split; [exact Hdl|]. split; [exact Hup|].
  split; [|exact Hw'].
  unfold train_step. rewrite Hloc. cbn [bind]. rewrite Hwin. cbn [bind].
  rewrite Hds, Hdl. cbn [bind]. exact Hup.
Qed.

(* ================================================================== *)
(** * Statements on the program *)
(* ================================================================== *)



(** [.loc] looks a row up by its label, not by its position: on a frame
    whose two rows are labelled 10 and 11 the first step raises KeyError. *)
Example train_som_other_labels :
  train_som {| df_index := [10; 11]%Z; df_values := [[1; 0]; [0; 1]]%R |}
    1 1 1 1%R (1 / 2)%R [[[1; 1]]]%R = Raise KeyError.
Proof. reflexivity. Qed.

(** C2: for a grid of shape [(X, Y, C)], a sample of length [C], a winning
    coordinate inside the grid and [sigma > 0], one call of [update] with the
    grid-index meshes returns a grid of the same shape whose entry at every
    neuron [(x, y)] and channel [k] is [old + weight(x, y) * (sample - old)],
    with [weight(x, y) = exp(-(x - wx)^2 / d) * exp(-(y - wy)^2 / d) * lr]
    and [d = 2 * pi * sigma^2]. *)
Theorem update_blends_towards_sample (X Y C : nat) (w : grid) (sample : vec)
  (wx wy : nat) (sigma learning_rate : R) :
  has_shape X Y C w -> length sample = C -> wx < X -> wy < Y ->
  (0 < sigma)%R ->
  exists w',
    update sample w (wx, wy) sigma learning_rate
      (fst (np_meshgrid (np_arange X) (np_arange Y)))
      (snd (np_meshgrid (np_arange X) (np_arange Y))) = Ok w' /\
    has_shape X Y C w' /\
    forall x y k, x < X -> y < Y -> k < C ->
      at3 w' x y k =
      (at3 w x y k
       + neighbourhood_weight sigma learning_rate wx wy x y
         * (nth k sample 0 - at3 w x y k))%R.
Proof.
  intros Hw Hs Hwx Hwy Hsigma.
  destruct (update_entries X Y C w sample wx wy sigma learning_rate
              Hw Hs Hwx Hwy) as [w' [Hup [Hw' Hat]]].
  exists w'. split; [exact Hup|]. split; [exact Hw'|].
  intros x y k Hx Hy Hk. rewrite (Hat x y k Hx Hy Hk).
  unfold neighbourhood_weight.
  replace (2 * PI * sigma ^ 2)%R with (2 * PI * sigma * sigma)%R by ring.
  reflexivity.
Qed.

Lemma update_blends_towards_sample_witness :
  exists w',
    update [1; 0]%R [[[0; 0]]; [[1; 1]]]%R (1, 0) 1%R (1 / 2)%R
      (fst (np_meshgrid (np_arange 2) (np_arange 1)))
      (snd (np_meshgrid (np_arange 2) (np_arange 1))) = Ok w' /\
    at3 w' 0 0 0 =
    (0 + neighbourhood_weight 1 (1 / 2) 1 0 0 0 * (1 - 0))%R.
Proof.
  destruct (update_blends_towards_sample 2 1 2 [[[0; 0]]; [[1; 1]]]%R
              [1; 0]%R 1 0 1%R (1 / 2)%R) as [w' [Hup [_ Hat]]].
  - split; [reflexivity|]. repeat constructor.
  - reflexivity.
  - lia.
  - lia.
  - lra.
  - exists w'. split; [exact Hup|]. apply (Hat 0 0 0); lia.
Defined.

(** C10: on a grid of shape [(X, Y, C)] with [X, Y >= 1] and a sample of
    length [C], [winner] returns a pair [(x, y)] with [x < X] and [y < Y];
    that neuron exists in the grid, and the two mesh lookups of [update] at
    the pair succeed.  More generally, whatever the sample, a pair that
    [winner] returns is inside the grid. *)
Theorem winner_returns_valid_index (X Y C : nat) (w : grid) (sample : vec) :
  has_shape X Y C w -> length sample = C -> 1 <= X -> 1 <= Y ->
  (exists x y,
     winner sample w = Ok (x, y) /\ x < X /\ y < Y /\
     (exists row p, nth_error w x = Some row /\ nth_error row y = Some p /\
                    length p = C) /\
     getitem (transpose (fst (np_meshgrid (np_arange X) (np_arange Y)))) (x, y)
     = Ok (INR x) /\
     getitem (transpose (snd (np_meshgrid (np_arange X) (np_arange Y)))) (x, y)
     = Ok (INR y)) /\
  (forall (s : vec) (c : nat * nat),
     winner s w = Ok c -> fst c < X /\ snd c < Y).
Proof.
  intros Hw Hs HX HY. split; [|intros s c; apply (winner_in_bounds X Y C); exact Hw].
  destruct (winner_first_min X Y C w sample Hw Hs HX HY) as [idx [Hwin [Hidx _]]].
  destruct (unravel_bounds X Y idx Hidx) as [Hx Hy].
  exists (idx / Y), (idx mod Y).
  split; [exact Hwin|]. split; [exact Hx|]. split; [exact Hy|]. split.
  - destruct (has_shape_cell X Y C w _ _ Hw Hx Hy) as [Hrow Hcell].
    exists (nth (idx / Y) w []), (cell w (idx / Y) (idx mod Y)).
    split; [|split; [|exact Hcell]].
    + apply nth_error_nth'. destruct Hw as [Hlen _]. lia.
    + unfold cell. apply nth_error_nth'. lia.
  - apply mesh_lookup; assumption.
Qed.

Lemma winner_returns_valid_index_witness :
  exists x y, winner [1; 0]%R [[[0; 0]]; [[1; 1]]]%R = Ok (x, y) /\ x < 2 /\ y < 1.
Proof.
  destruct (winner_returns_valid_index 2 1 2 [[[0; 0]]; [[1; 1]]]%R [1; 0]%R)
    as [[x [y [Hwin [Hx [Hy _]]]]] _].
  - split; [reflexivity|]. repeat constructor.
  - reflexivity.
  - lia.
  - lia.
  - exists x, y. split; [exact Hwin|]. split; [exact Hx|exact Hy].
Defined.

(** C6: for [param > 0], [num_iters >= 1] and step indices
    [0 <= t1 <= t2], [decay_function] does not raise (so not for
    [num_iters = 1] either), returns [param / (1 + t / (num_iters / 2))], is
    non-increasing in [t], and returns [param] itself at [t = 0]. *)
Theorem decay_function_monotone (param : R) (t1 t2 num_iters : Z) :
  (0 < param)%R -> (1 <= num_iters)%Z -> (0 <= t1 <= t2)%Z ->
  exists v1 v2,
    decay_function param t1 num_iters = Ok v1 /\
    decay_function param t2 num_iters = Ok v2 /\
    v1 = (param / (1 + IZR t1 / (IZR num_iters / 2)))%R /\
    v2 = (param / (1 + IZR t2 / (IZR num_iters / 2)))%R /\
    (v2 <= v1)%R /\
    decay_function param 0 num_iters = Ok param /\
    is_ok (decay_function param t1 1) = true.
Proof.
  intros Hparam Hn [Ht1 Ht12].
  assert (Ht2 : (0 <= t2)%Z) by lia.
  do 2 eexists.
  split; [apply decay_function_value; assumption|].
  split; [apply decay_function_value; assumption|].
  split; [reflexivity|]. split; [reflexivity|].
  destruct (decay_denominator_pos t1 num_iters Hn Ht1) as [Hhalf Hd1].
  split; [|split].
  - unfold Rdiv at 1 3. apply Rmult_le_compat_l; [lra|].
    apply Rinv_le_contravar; [lra|].
    apply Rplus_le_compat_l. unfold Rdiv at 1 3.
    apply Rmult_le_compat_r.
    + left. apply Rinv_0_lt_compat. assumption.
    + apply IZR_le. assumption.
  - rewrite decay_function_value by lia. f_equal.
    unfold Rdiv at 2. rewrite Rmult_0_l, Rplus_0_r. unfold Rdiv.
    rewrite Rinv_1. ring.
  - rewrite decay_function_value by lia. reflexivity.
Qed.

Lemma decay_function_monotone_witness :
  exists v1 v2,
    decay_function 1 1 4 = Ok v1 /\ decay_function 1 3 4 = Ok v2 /\
    (v2 <= v1)%R.
Proof.
  destruct (decay_function_monotone 1 1 3 4) as [v1 [v2 [H1 [H2 [_ [_ [Hle _]]]]]]].
  - lra.
  - lia.
  - lia.
  - exists v1, v2. split; [exact H1|]. split; [exact H2|exact Hle].
Defined.

(** The step index is not negative in [train_som]; [decay_function] is not
    meant for one: with [t = -1] and [num_iters = 2] the denominator is 0. *)
Example decay_function_negative_step :
  decay_function 1 (-1) 2 = Raise ZeroDivisionError.
Proof.
  unfold decay_function, py_truediv.
  destruct (Req_dec_T 2 0) as [E|_]; [lra|]. cbn [bind].
  destruct (Req_dec_T (2 / 2) 0) as [E|_]; [lra|]. cbn [bind].
  destruct (Req_dec_T (1 + -1 / (2 / 2)) 0) as [_|E]; [reflexivity|].
  exfalso. apply E. field.
Qed.

(** C4, as the code has it: with [num_passes <= 0], or with a sample matrix
    without rows, [train_som] raises nothing; the loop body never runs and
    the initial (normalised random) grid comes back. *)
Theorem train_som_zero_steps (pixel_mat : DataFrame) (x_neurons y_neurons : nat)
  (num_passes : Z) (sigma learning_rate : R) (rnd : grid) :
  (num_passes <= 0)%Z \/ df_values pixel_mat = [] ->
  enumerate (iter_rows (num_passes * Z.of_nat (length (df_values pixel_mat)))
               (length (df_values pixel_mat))) = [] /\
  train_som pixel_mat x_neurons y_neurons num_passes sigma learning_rate rnd
  = Ok (initial_weights rnd).
Proof.
  intros H.
  assert (E : Z.to_nat (num_passes * Z.of_nat (length (df_values pixel_mat)))
               = 0).
  { destruct H as [H| ->]; [|simpl; rewrite Z.mul_0_r; reflexivity].
    assert (num_passes * Z.of_nat (length (df_values pixel_mat)) <= 0)%Z
      by nia.
    lia. }
  assert (E' : enumerate
                 (iter_rows (num_passes * Z.of_nat (length (df_values pixel_mat)))
                    (length (df_values pixel_mat))) = []).
  { rewrite enumerate_iter_rows, E. reflexivity. }
  split; [exact E'|].
  unfold train_som. destruct (np_meshgrid _ _) as [x_mesh y_mesh].
  rewrite E'. reflexivity.
Qed.

Lemma train_som_zero_steps_witness :
  train_som (frame [[1; 0]; [0; 1]]%R) 2 1 0 1%R (1 / 2)%R [[[1; 1]]; [[1; 1]]]%R
  = Ok (initial_weights [[[1; 1]]; [[1; 1]]]%R).
Proof.
  apply (train_som_zero_steps (frame [[1; 0]; [0; 1]]%R) 2 1 0 1%R (1 / 2)%R
           [[[1; 1]]; [[1; 1]]]%R).
  left. lia.
Defined.

(** C4, as stated, fails: with [num_passes = 0] on a two-row matrix, and
    with [num_passes = 1] on a matrix without rows, [train_som] raises
    nothing and returns the initial grid, produced by zero training
    steps. *)
Lemma train_som_no_configuration_error :
  let rnd := [[[1; 1]]; [[1; 1]]]%R in
  (train_som (frame [[1; 0]; [0; 1]]%R) 2 1 0 1%R (1 / 2)%R rnd
   = Ok (initial_weights rnd) /\
   ~ exists e, train_som (frame [[1; 0]; [0; 1]]%R) 2 1 0 1%R (1 / 2)%R rnd = Raise e)
  /\
  (train_som (frame []) 2 1 1 1%R (1 / 2)%R rnd = Ok (initial_weights rnd) /\
   ~ exists e, train_som (frame []) 2 1 1 1%R (1 / 2)%R rnd = Raise e).
Proof.
  intros rnd.
  assert (H0 : train_som (frame [[1; 0]; [0; 1]]%R) 2 1 0 1%R (1 / 2)%R rnd
               = Ok (initial_weights rnd)) by reflexivity.
  assert (H1 : train_som (frame []) 2 1 1 1%R (1 / 2)%R rnd
               = Ok (initial_weights rnd)) by reflexivity.
  split; (split; [assumption|]); intros [e He].
  - rewrite H0 in He. discriminate He.
  - rewrite H1 in He. discriminate He.
Qed.

(** ** When winner and cluster_som raise *)

Lemma winner_ok_iff (X Y C : nat) (w : grid) (sample : vec) :
  has_shape X Y C w -> 1 <= X -> 1 <= Y ->
  (is_ok (winner sample w) = true <-> broadcastable (length sample) C).
Proof.
  intros Hw HX HY.
  rewrite <- (np_subtract_ok_iff X Y C w sample Hw HX HY).
  destruct (np_subtract sample w) as [diff|e] eqn:Hd.
  - split; [reflexivity|]. intros _.
    destruct (np_subtract_rows sample w diff Hd) as [Hlen Hrows].
    destruct (winner_of_diff X Y sample w diff Hd) as [idx [Hwin _]];
      try assumption.
    + apply np_linalg_norm_shape.
      * rewrite Hlen. apply Hw.
      * intros x Hx. rewrite Hrows. apply (has_shape_rows X Y C); assumption.
    + rewrite Hwin. reflexivity.
  - unfold winner. rewrite Hd. simpl. split; intros H; exact H.
Qed.

Lemma replace_same_length_ok (to_replace value s : list pyval) :
  length to_replace = length value -> is_ok (replace to_replace value s) = true.
Proof.
  intros H. unfold replace. rewrite H, Nat.eqb_refl. reflexivity.
Qed.

Lemma cluster_som_ok_iff (pixel_mat : DataFrame) (w : grid) :
  is_ok (cluster_som pixel_mat w) = true
  <-> is_ok (mapM (fun row => winner row w) (df_values pixel_mat)) = true.
Proof.
  unfold cluster_som.
  destruct (mapM (fun row => winner row w) (df_values pixel_mat))
    as [coords|e]; simpl.
  - split; [reflexivity|]. intros _. apply replace_same_length_ok.
    rewrite length_map, length_seq. reflexivity.
  - split; intros H; exact H.
Qed.

Lemma mapM_ok_iff {A B : Type} (f : A -> result B) (l : list A) :
  is_ok (mapM f l) = true <-> Forall (fun a => is_ok (f a) = true) l.
Proof.
  induction l as [|a l IH]; simpl.
  - split; [constructor|reflexivity].
  - destruct (f a) as [b|e] eqn:Ef; simpl.
    + destruct (mapM f l) as [bs|e]; simpl.
      * split; [|reflexivity]. intros _. constructor; [rewrite Ef; reflexivity|].
        apply IH. reflexivity.
      * split; [discriminate|]. intros H. inversion H as [|? ? _ Hl]. subst.
        apply IH in Hl. discriminate Hl.
    + split; [discriminate|]. intros H. inversion H as [|? ? Ha _]. subst.
      rewrite Ef in Ha. discriminate Ha.
Qed.

Lemma not_ok_raise {A : Type} (r : result A) :
  is_ok r = false <-> exists e, r = Raise e.
Proof.
  destruct r as [a|e]; simpl; split.
  - discriminate.
  - intros [e H]; discriminate H.
  - intros _. exists e. reflexivity.
  - reflexivity.
Qed.

Lemma winner_no_neuron (X Y C : nat) (w : grid) (sample : vec) :
  has_shape X Y C w -> X = 0 \/ Y = 0 -> winner sample w = Raise ValueError.
Proof.
  intros [Hlen Hrows] H0.
  assert (Hall : Forall (fun row : list (list R) => row = []) w).
  { destruct H0 as [-> | ->].
    - destruct w; [constructor|discriminate].
    - rewrite Forall_forall in *. intros row Hin.
      destruct (Hrows row Hin) as [Hr _]. destruct row; [reflexivity|discriminate]. }
  assert (Hd : np_subtract sample w = Ok (map (fun _ => []) w)).
  { unfold np_subtract. apply mapM_pure. rewrite Forall_forall in *.
    intros row Hin. rewrite (Hall row Hin). reflexivity. }
  unfold winner. rewrite Hd. cbn [bind].
  assert (Hc : concat (np_linalg_norm (map (fun _ => []) w)) = []).
  { unfold np_linalg_norm. rewrite map_map. clear.
    induction w as [|row w IH]; simpl; [reflexivity|exact IH]. }
  unfold argmin. rewrite Hc. reflexivity.
Qed.

(** C8, as the code has it: [winner] raises exactly when the grid has no
    neuron or the length of the sample and the channel count of the grid are
    not broadcast-compatible (they differ and neither is 1).  On a grid with
    at least one neuron a sample of length [C] never raises, and
    [cluster_som], on a frame with rows of length [L], raises exactly when
    [L] and [C] are not broadcast-compatible. *)
Theorem winner_raises_iff_not_broadcastable (X Y C : nat) (w : grid) :
  has_shape X Y C w ->
  (forall sample : vec,
     (exists e, winner sample w = Raise e)
     <-> (X = 0 \/ Y = 0 \/ ~ broadcastable (length sample) C)) /\
  (1 <= X -> 1 <= Y ->
   (forall sample : vec,
      length sample = C -> exists c, winner sample w = Ok c) /\
   (forall (pixel_mat : DataFrame) (L : nat),
      df_values pixel_mat <> [] ->
      Forall (fun r => length r = L) (df_values pixel_mat) ->
      ((exists e, cluster_som pixel_mat w = Raise e)
       <-> ~ broadcastable L C))).
Proof.
  intros Hw.
  assert (Hwin : forall sample : vec, 1 <= X -> 1 <= Y ->
            ((exists e, winner sample w = Raise e)
             <-> ~ broadcastable (length sample) C)).
  { intros sample HX HY. rewrite <- not_ok_raise.
    rewrite <- (winner_ok_iff X Y C w sample Hw HX HY).
    destruct (is_ok (winner sample w)).
    - split; [intros H; discriminate H|intros H; exfalso; apply H; reflexivity].
    - split; [intros _ H; discriminate H|reflexivity]. }
  split.
  - intros sample.
    destruct (Nat.eq_dec X 0) as [HX0|HX0];
      [|destruct (Nat.eq_dec Y 0) as [HY0|HY0]].
    + split; [intros _; left; exact HX0|]. intros _. exists ValueError.
      apply (winner_no_neuron X Y C); [exact Hw|left; exact HX0].
    + split; [intros _; right; left; exact HY0|]. intros _. exists ValueError.
      apply (winner_no_neuron X Y C); [exact Hw|right; exact HY0].
    + rewrite (Hwin sample) by lia. split; [intros H; right; right; exact H|].
      intros [H|[H|H]]; [lia|lia|exact H].
  - intros HX HY. split.
    + intros sample Hlen.
      assert (Hok : is_ok (winner sample w) = true).
      { apply (winner_ok_iff X Y C w sample Hw HX HY). left. exact Hlen. }
      destruct (winner sample w) as [c|e]; [exists c; reflexivity|discriminate].
    + intros pixel_mat L Hne Hrows.
      rewrite <- not_ok_raise.
      assert (Hiff : is_ok (cluster_som pixel_mat w) = true <-> broadcastable L C).
      { rewrite cluster_som_ok_iff, mapM_ok_iff. split.
        - intros Hall. destruct (df_values pixel_mat) as [|row rest];
            [congruence|].
          inversion Hall as [|? ? Hrow _]; subst.
          inversion Hrows as [|? ? HL _]; subst.
          apply (winner_ok_iff X Y C w row Hw HX HY) in Hrow.
          exact Hrow.
        - intros Hb. rewrite Forall_forall in *. intros row Hin.
          apply (winner_ok_iff X Y C w row Hw HX HY).
          rewrite (Hrows row Hin). exact Hb. }
      destruct (is_ok (cluster_som pixel_mat w)).
      * split; [intros H; discriminate H|].
        intros H; exfalso; apply H, Hiff; reflexivity.
      * split; [|reflexivity]. intros _ H. apply Hiff in H. discriminate H.
Qed.

Lemma winner_raises_iff_not_broadcastable_witness :
  (exists c, winner [1; 0]%R [[[0; 0]]; [[1; 1]]]%R = Ok c) /\
  ((exists e, winner [1; 0; 0]%R [[[0; 0]]; [[1; 1]]]%R = Raise e)
   <-> (2 = 0 \/ 1 = 0 \/ ~ broadcastable 3 2)).
Proof.
  destruct (winner_raises_iff_not_broadcastable 2 1 2 [[[0; 0]]; [[1; 1]]]%R)
    as [Hwin Hok].
  - split; [reflexivity|]. repeat constructor.
  - split.
    + apply Hok; [lia|lia|reflexivity].
    + apply (Hwin [1; 0; 0]%R).
Defined.

(** C8, as stated, fails: a sample of length 1 on a grid with two channels
    is broadcast, and [winner] returns a coordinate; so does [cluster_som]
    on a one-column frame. *)
Lemma winner_accepts_mismatched_sample :
  length [0%R] <> 2 /\
  has_shape 1 1 2 [[[0; 0]]]%R /\
  winner [0]%R [[[0; 0]]]%R = Ok (0, 0) /\
  is_ok (cluster_som (frame [[0]]%R) [[[0; 0]]]%R) = true.
Proof.
  split; [simpl; lia|]. split; [split; [reflexivity|repeat constructor]|].
  split; reflexivity.
Qed.

(** ** The store: what a call leaves untouched *)

Lemma extends_refl (h : heap) : extends h h.
Proof. exists []. rewrite app_nil_r. reflexivity. Qed.

Lemma extends_trans (h1 h2 h3 : heap) :
  extends h1 h2 -> extends h2 h3 -> extends h1 h3.
Proof.
  intros [e1 ->] [e2 ->]. exists (e1 ++ e2). rewrite app_assoc. reflexivity.
Qed.

Lemma extends_lookup (h h' : heap) (l : ref) (a : ndarray) :
  extends h h' -> nth_error h l = Some a -> nth_error h' l = Some a.
Proof.
  intros [ext ->] H. rewrite nth_error_app1; [assumption|].
  apply nth_error_Some. congruence.
Qed.

Lemma extends_length (h h' : heap) : extends h h' -> length h <= length h'.
Proof. intros [ext ->]. rewrite length_app. lia. Qed.

Lemma alloc_only_ret {A : Type} (a : A) : alloc_only (ret a).
Proof. intros h. apply extends_refl. Qed.

Lemma alloc_only_lift {A : Type} (r : result A) : alloc_only (lift r).
Proof. intros h. apply extends_refl. Qed.

Lemma alloc_only_alloc (a : ndarray) : alloc_only (alloc a).
Proof. intros h. exists [a]. reflexivity. Qed.

Lemma alloc_only_load (l : ref) : alloc_only (load l).
Proof.
  intros h. unfold load. destruct (nth_error h l); apply extends_refl.
Qed.

Lemma alloc_only_bind {A B : Type} (c : M A) (k : A -> M B) :
  alloc_only c -> (forall a, alloc_only (k a)) -> alloc_only (bindM c k).
Proof.
  intros Hc Hk h. unfold bindM. specialize (Hc h).
  destruct (c h) as [[a|e] h1]; simpl in *; [|assumption].
  apply (extends_trans h h1); [assumption|apply Hk].
Qed.

Ltac alloc_only_tac :=
  repeat first
    [ apply alloc_only_ret
    | apply alloc_only_lift
    | apply alloc_only_alloc
    | apply alloc_only_load
    | apply alloc_only_bind; [|intros ?] ].

Lemma alloc_only_load_vec (l : ref) : alloc_only (load_vec l).
Proof. unfold load_vec. alloc_only_tac. Qed.

Lemma alloc_only_load_mat (l : ref) : alloc_only (load_mat l).
Proof. unfold load_mat. alloc_only_tac. Qed.

Lemma alloc_only_load_grid (l : ref) : alloc_only (load_grid l).
Proof. unfold load_grid. alloc_only_tac. Qed.

Lemma alloc_only_winner_h (sample weights : ref) :
  alloc_only (winner_h sample weights).
Proof.
  unfold winner_h, load_vec, load_mat, load_grid. alloc_only_tac.
Qed.

Lemma alloc_only_update_h (sample weights : ref) (wc : nat * nat)
  (sigma learning_rate : R) (x_mesh y_mesh : ref) :
  alloc_only (update_h sample weights wc sigma learning_rate x_mesh y_mesh).
Proof.
  unfold update_h, load_vec, load_mat, load_grid. alloc_only_tac.
Qed.

Lemma alloc_only_mapM_h {A B : Type} (f : A -> M B) (l : list A) :
  (forall a, alloc_only (f a)) -> alloc_only (mapM_h f l).
Proof.
  intros Hf. induction l as [|a l IH]; simpl.
  - apply alloc_only_ret.
  - apply alloc_only_bind; [apply Hf|]. intros b.
    apply alloc_only_bind; [apply IH|]. intros bs. apply alloc_only_ret.
Qed.

Lemma alloc_only_cluster_som_h (pixel_mat : DataFrame) (weights : ref) :
  alloc_only (cluster_som_h pixel_mat weights).
Proof.
  unfold cluster_som_h. apply alloc_only_bind.
  - apply alloc_only_mapM_h. intros row.
    apply alloc_only_bind; [apply alloc_only_alloc|]. intros s.
    apply alloc_only_winner_h.
  - intros coords. apply alloc_only_lift.
Qed.

(** [store] is not of that kind: it replaces the array at its address. *)
Lemma overwrite_lookup (l : ref) (a : ndarray) (h : heap) :
  l < length h -> nth_error (overwrite l a h) l = Some a.
Proof.
  revert l. induction h as [|b h IH]; intros [|l] Hl; simpl in *; try lia.
  - reflexivity.
  - apply IH. lia.
Qed.

Lemma store_overwrites (l : ref) (a b : ndarray) (h : heap) :
  nth_error h l = Some b -> a <> b -> ~ extends h (snd (store l a h)).
Proof.
  intros Hb Hne Hext. apply (extends_lookup _ _ l b Hext) in Hb as Hb'.
  simpl in Hb'. rewrite overwrite_lookup in Hb'.
  - injection Hb' as E. contradiction.
  - apply nth_error_Some. congruence.
Qed.

(** ** The store: what a call computes *)

Lemma run_load (h : heap) (l : ref) (a : ndarray) :
  nth_error h l = Some a -> load l h = (Ok a, h).
Proof. intros H. unfold load. rewrite H. reflexivity. Qed.

Lemma run_load_vec (h : heap) (l : ref) (v : vec) :
  nth_error h l = Some (Arr1 v) -> load_vec l h = (Ok v, h).
Proof. intros H. unfold load_vec, bindM. rewrite (run_load h l _ H). reflexivity. Qed.

Lemma run_load_mat (h : heap) (l : ref) (a : mat) :
  nth_error h l = Some (Arr2 a) -> load_mat l h = (Ok a, h).
Proof. intros H. unfold load_mat, bindM. rewrite (run_load h l _ H). reflexivity. Qed.

Lemma run_load_grid (h : heap) (l : ref) (w : grid) :
  nth_error h l = Some (Arr3 w) -> load_grid l h = (Ok w, h).
Proof. intros H. unfold load_grid, bindM. rewrite (run_load h l _ H). reflexivity. Qed.

Lemma lookup_new (h : heap) (a : ndarray) :
  nth_error (h ++ [a]) (length h) = Some a.
Proof. rewrite nth_error_app2 by lia. rewrite Nat.sub_diag. reflexivity. Qed.

Lemma lookup_old (h ext : heap) (l : ref) (a : ndarray) :
  nth_error h l = Some a -> nth_error (h ++ ext) l = Some a.
Proof. intros H. apply (extends_lookup h); [exists ext; reflexivity|assumption]. Qed.

(** [winner_h] returns what [winner] returns on the arrays referred to. *)
Lemma winner_h_computes (h : heap) (ls lw : ref) (s : vec) (w : grid) :
  nth_error h ls = Some (Arr1 s) -> nth_error h lw = Some (Arr3 w) ->
  fst (winner_h ls lw h) = winner s w.
Proof.
  intros Hs Hw. unfold winner_h, winner.
  unfold bindM at 1. rewrite (run_load_vec h ls s Hs).
  unfold bindM at 1. rewrite (run_load_grid h lw w Hw).
  unfold bindM at 1. unfold lift at 1.
  destruct (np_subtract s w) as [diff|e]; [|reflexivity]. cbn [bind].
  unfold bindM at 1. unfold alloc at 1.
  unfold bindM at 1.
  rewrite (run_load_grid _ _ diff (lookup_new h (Arr3 diff))).
  unfold bindM at 1. unfold alloc at 1.
  unfold bindM at 1.
  rewrite (run_load_mat _ _ _ (lookup_new _ (Arr2 (np_linalg_norm diff)))).
  unfold bindM at 1. unfold lift at 1.
  destruct (argmin (np_linalg_norm diff)) as [idx|e]; reflexivity.
Qed.

Ltac lookup_tac :=
  repeat first [ apply lookup_new | apply lookup_old ]; eassumption.

Ltac run_load_in H :=
  unfold bindM at 1 in H;
  first [ erewrite run_load_mat in H by lookup_tac
        | erewrite run_load_vec in H by lookup_tac
        | erewrite run_load_grid in H by lookup_tac ];
  cbv iota beta in H.

Ltac run_alloc_in H :=
  unfold bindM at 1 in H; unfold alloc at 1 in H; cbv iota beta in H.

Ltac run_lift_in H E :=
  unfold bindM at 1 in H; unfold lift at 1 in H; try rewrite E in H;
  cbv iota beta in H.

(** [update_h] raises what [update] raises, and otherwise returns a
    reference to a new array that holds the grid [update] returns. *)
Lemma update_h_computes (h : heap) (ls lw lxm lym : ref) (s : vec) (w : grid)
  (xm ym : mat) (wc : nat * nat) (sigma learning_rate : R) :
  nth_error h ls = Some (Arr1 s) -> nth_error h lw = Some (Arr3 w) ->
  nth_error h lxm = Some (Arr2 xm) -> nth_error h lym = Some (Arr2 ym) ->
  match update s w wc sigma learning_rate xm ym with
  | Ok w' =>
      exists l', fst (update_h ls lw wc sigma learning_rate lxm lym h) = Ok l' /\
                 length h <= l' /\
                 nth_error (snd (update_h ls lw wc sigma learning_rate lxm lym h)) l'
                 = Some (Arr3 w')
  | Raise e => fst (update_h ls lw wc sigma learning_rate lxm lym h) = Raise e
  end.
Proof.
  intros Hs Hw Hxm Hym.
  remember (update_h ls lw wc sigma learning_rate lxm lym h) as r eqn:Er.
  unfold update_h in Er. unfold update.
  run_load_in Er.
  destruct (getitem (transpose xm) wc) as [cx|e] eqn:E1;
    run_lift_in Er E1; [|subst r; reflexivity]. cbn [bind].
  run_alloc_in Er. run_load_in Er.
  destruct (getitem (transpose ym) wc) as [cy|e] eqn:E2;
    run_lift_in Er E2; [|subst r; reflexivity]. cbn [bind].
  run_alloc_in Er. run_load_in Er. run_load_in Er.
  match goal with |- context [np_multiply ?a ?b] =>
    destruct (np_multiply a b) as [axay|e] eqn:E3 end;
    run_lift_in Er E3; [|subst r; reflexivity]. cbn [bind].
  run_alloc_in Er. run_load_in Er. run_load_in Er.
  destruct (np_subtract s w) as [diff|e] eqn:E4;
    run_lift_in Er E4; [|subst r; reflexivity]. cbn [bind].
  run_alloc_in Er. run_load_in Er. run_load_in Er.
  match goal with |- context [np_einsum ?a ?b] =>
    destruct (np_einsum a b) as [delta|e] eqn:E5 end;
    run_lift_in Er E5; [|subst r; reflexivity]. cbn [bind].
  run_alloc_in Er. run_load_in Er. run_load_in Er.
  destruct (np_add w delta) as [new_weights|e] eqn:E6;
    run_lift_in Er E6; [|subst r; reflexivity].
  unfold alloc in Er. subst r. cbn [fst snd].
  eexists. split; [reflexivity|]. split.
  - rewrite !length_app. lia.
  - apply lookup_new.
Qed.

Lemma mapM_h_winner (pixel_mat : list (list R)) (h : heap) (lw : ref) (w : grid) :
  nth_error h lw = Some (Arr3 w) ->
  fst (mapM_h (fun row => (s <~ alloc (Arr1 row) ;; winner_h s lw)%store)
         pixel_mat h)
  = mapM (fun row => winner row w) pixel_mat.
Proof.
  revert h. induction pixel_mat as [|row rest IH]; intros h Hw; [reflexivity|].
  cbn [mapM_h mapM].
  unfold bindM at 1. unfold bindM at 1. unfold alloc at 1. cbv iota beta.
  pose proof (winner_h_computes (h ++ [Arr1 row]) (length h) lw row w
                (lookup_new h (Arr1 row)) (lookup_old h [Arr1 row] lw _ Hw))
    as Hwin.
  pose proof (alloc_only_winner_h (length h) lw (h ++ [Arr1 row])) as Hext.
  destruct (winner_h (length h) lw (h ++ [Arr1 row])) as [r h1].
  cbn [fst snd] in Hwin, Hext. rewrite <- Hwin.
  destruct r as [c|e]; [|reflexivity]. cbn [bind].
  assert (Hw1 : nth_error h1 lw = Some (Arr3 w)).
  { apply (extends_lookup (h ++ [Arr1 row])); [assumption|].
    apply lookup_old. assumption. }
  specialize (IH h1 Hw1). unfold bindM at 1.
  destruct (mapM_h _ rest h1) as [rs h2]. cbn [fst] in IH. rewrite <- IH.
  destruct rs; reflexivity.
Qed.

(** [cluster_som_h] returns what [cluster_som] returns. *)
Lemma cluster_som_h_computes (pixel_mat : DataFrame) (h : heap) (lw : ref)
  (w : grid) :
  nth_error h lw = Some (Arr3 w) ->
  fst (cluster_som_h pixel_mat lw h) = cluster_som pixel_mat w.
Proof.
  intros Hw. unfold cluster_som_h, cluster_som.
  pose proof (mapM_h_winner (df_values pixel_mat) h lw w Hw) as Hm.
  unfold bindM at 1.
  destruct (mapM_h _ (df_values pixel_mat) h) as [r h1]. cbn [fst] in Hm. rewrite <- Hm.
  destruct r; reflexivity.
Qed.

Lemma returns_fresh_alloc (a : ndarray) : returns_fresh (alloc a).
Proof. intros h l' H. simpl in H. injection H as <-. lia. Qed.

Lemma returns_fresh_bind {A : Type} (c : M A) (k : A -> M ref) :
  alloc_only c -> (forall a, returns_fresh (k a)) -> returns_fresh (bindM c k).
Proof.
  intros Hc Hk h l'. unfold bindM. specialize (Hc h).
  destruct (c h) as [[a|e] h1]; simpl in *; [|discriminate].
  intros H. apply Hk in H. apply extends_length in Hc. lia.
Qed.

Lemma returns_fresh_update_h (sample weights : ref) (wc : nat * nat)
  (sigma learning_rate : R) (x_mesh y_mesh : ref) :
  returns_fresh (update_h sample weights wc sigma learning_rate x_mesh y_mesh).
Proof.
  unfold update_h.
  repeat (apply returns_fresh_bind;
          [first [ apply alloc_only_load_mat | apply alloc_only_load_vec
                 | apply alloc_only_load_grid | apply alloc_only_lift
                 | apply alloc_only_alloc ]
          | intros ? ]).
  apply returns_fresh_alloc.
Qed.

(** C9: whatever the store holds, a call of [winner], of [cluster_som] or of
    [update] leaves every array that was in the store as it was, the grid
    passed in among them; [update] returns a reference that was not in use
    before the call, and (when the arguments refer to arrays of the right
    kind) the array there is the grid that [update] computes. *)
Theorem calls_leave_the_grid_unmodified (h : heap) (l : ref) (a : ndarray) :
  nth_error h l = Some a ->
  (forall sample weights,
     nth_error (snd (winner_h sample weights h)) l = Some a) /\
  (forall pixel_mat weights,
     nth_error (snd (cluster_som_h pixel_mat weights h)) l = Some a) /\
  (forall sample weights wc sigma learning_rate x_mesh y_mesh,
     nth_error
       (snd (update_h sample weights wc sigma learning_rate x_mesh y_mesh h)) l
     = Some a /\
     (forall l',
        fst (update_h sample weights wc sigma learning_rate x_mesh y_mesh h)
        = Ok l' -> l' <> l) /\
     (forall s w xm ym w',
        nth_error h sample = Some (Arr1 s) ->
        nth_error h weights = Some (Arr3 w) ->
        nth_error h x_mesh = Some (Arr2 xm) ->
        nth_error h y_mesh = Some (Arr2 ym) ->
        update s w wc sigma learning_rate xm ym = Ok w' ->
        exists l',
          fst (update_h sample weights wc sigma learning_rate x_mesh y_mesh h)
          = Ok l' /\
          nth_error
            (snd (update_h sample weights wc sigma learning_rate x_mesh y_mesh h))
            l' = Some (Arr3 w') /\
          nth_error
            (snd (update_h sample weights wc sigma learning_rate x_mesh y_mesh h))
            weights = Some (Arr3 w))).
Proof.
  intros Hl. split; [|split].
  - intros sample weights.
    apply (extends_lookup h); [apply alloc_only_winner_h|assumption].
  - intros pixel_mat weights.
    apply (extends_lookup h); [apply alloc_only_cluster_som_h|assumption].
  - intros sample weights wc sigma learning_rate x_mesh y_mesh.
    pose proof (alloc_only_update_h sample weights wc sigma learning_rate
                  x_mesh y_mesh h) as Hext.
    split; [|split].
    + apply (extends_lookup h); assumption.
    + intros l' Hret Heq. subst l'.
      assert (Hlt : l < length h) by (apply nth_error_Some; congruence).
      apply returns_fresh_update_h in Hret. lia.
    + intros s w xm ym w' Hs Hw Hxm Hym Hup.
      pose proof (update_h_computes h sample weights x_mesh y_mesh s w xm ym wc
                    sigma learning_rate Hs Hw Hxm Hym) as Hc.
      rewrite Hup in Hc. destruct Hc as [l' [Hret [_ Hnew]]].
      exists l'. split; [exact Hret|]. split; [exact Hnew|].
      apply (extends_lookup h); assumption.
Qed.

Lemma overwrite_new (h : heap) (a b : ndarray) :
  overwrite (length h) b (h ++ [a]) = h ++ [b].
Proof.
  induction h as [|c h IH]; simpl; [reflexivity|]. rewrite IH. reflexivity.
Qed.

(** The in-place division of lines 114-115 overwrites the array that line
    114 has just created, not the array of random draws: the store after
    the two lines is the store before them plus the initial grid. *)
Lemma initial_weights_h_computes (h : heap) (l : ref) (rnd : grid) :
  nth_error h l = Some (Arr3 rnd) ->
  initial_weights_h l h = (Ok (length h), h ++ [Arr3 (initial_weights rnd)]).
Proof.
  intros Hl. unfold initial_weights_h.
  unfold bindM at 1. rewrite (run_load_grid h l rnd Hl).
  unfold bindM at 1. unfold alloc at 1.
  unfold bindM at 1. rewrite (run_load_grid _ _ _ (lookup_new h _)).
  unfold bindM at 1. unfold store, ret. rewrite overwrite_new. reflexivity.
Qed.

Lemma calls_leave_the_grid_unmodified_witness :
  let h := [Arr1 [1; 0]%R; Arr3 [[[0; 0]]; [[1; 1]]]%R] in
  nth_error (snd (winner_h 0 1 h)) 1 = Some (Arr3 [[[0; 0]]; [[1; 1]]]%R) /\
  nth_error (snd (cluster_som_h (frame [[1; 0]; [0; 1]]%R) 1 h)) 1
  = Some (Arr3 [[[0; 0]]; [[1; 1]]]%R).
Proof.
  intros h.
  destruct (calls_leave_the_grid_unmodified h 1 (Arr3 [[[0; 0]]; [[1; 1]]]%R))
    as [Hwin [Hcl _]].
  - reflexivity.
  - split; [apply Hwin|apply Hcl].
Defined.



(** The tie of the witness, worked out: all four prototypes are at distance
    1 from the sample, and the winner is [(0, 0)]. *)
Example winner_four_way_tie :
  winner [1; 0]%R [[[0; 0]; [2; 0]]; [[1; 1]; [1; -1]]]%R = Ok (0, 0).
Proof.
  unfold winner, np_subtract. cbn [mapM bcast length Nat.eqb combine fst snd
                                     lift2 bind].
  unfold np_linalg_norm, argmin. cbn [map concat app].
  assert (E : forall a b : R, (a * a + (b * b + 0) = 1)%R ->
              norm [a; b] = 1%R).
  { intros a b H. unfold norm. cbn [map sum_list fold_right]. rewrite H.
    apply sqrt_1. }
  rewrite !E by lra. cbn [argmin_from].
  destruct (Rlt_dec 1 1) as [H|_]; [lra|].
  reflexivity.
Qed.

(** ** Coordinates as strings *)

Lemma digits_contain_no (c : ascii) (d : uint) :
  c = ","%char \/ c = ")"%char ->
  contains c (NilEmpty.string_of_uint d) = false.
Proof.
  intros [-> | ->]; induction d; simpl; auto.
Qed.

Lemma append_split (c : ascii) (a a' r r' : string) :
  contains c a = false -> contains c a' = false ->
  (a ++ String c r = a' ++ String c r')%string -> a = a' /\ r = r'.
Proof.
  revert a'. induction a as [|x a IH]; intros [|y a'] Ha Ha' H; simpl in *.
  - injection H as <-. split; reflexivity.
  - injection H as <- _. rewrite Ascii.eqb_refl in Ha'. discriminate Ha'.
  - injection H as -> _. rewrite Ascii.eqb_refl in Ha. discriminate Ha.
  - injection H as <- H. apply orb_false_elim in Ha, Ha'.
    destruct (IH a' (proj2 Ha) (proj2 Ha') H) as [<- <-].
    split; reflexivity.
Qed.

Lemma str_of_nat_inj (n m : nat) : str_of_nat n = str_of_nat m -> n = m.
Proof.
  unfold str_of_nat. intros H.
  assert (E : Some (Nat.to_uint n) = Some (Nat.to_uint m)).
  { rewrite <- !NilEmpty.usu. rewrite H. reflexivity. }
  injection E as E.
  rewrite <- (Unsigned.of_to n), <- (Unsigned.of_to m), E. reflexivity.
Qed.

Lemma str_of_coords_inj (c c' : nat * nat) :
  str_of_coords c = str_of_coords c' -> c = c'.
Proof.
  destruct c as [x y], c' as [x' y']. unfold str_of_coords. simpl.
  intros H. injection H as H.
  apply append_split in H;
    try (apply digits_contain_no; left; reflexivity).
  destruct H as [Hx H]. injection H as H.
  apply append_split in H;
    try (apply digits_contain_no; right; reflexivity).
  destruct H as [Hy _].
  apply str_of_nat_inj in Hx, Hy. subst. reflexivity.
Qed.

Lemma pyval_eqb_eq (a b : pyval) : pyval_eqb a b = true <-> a = b.
Proof.
  destruct a as [s|n], b as [t|m]; simpl.
  - rewrite String.eqb_eq. split; [intros ->; reflexivity|intros H; injection H; auto].
  - split; discriminate.
  - split; discriminate.
  - rewrite Z.eqb_eq. split; [intros ->; reflexivity|intros H; injection H; auto].
Qed.

Lemma pyval_eqb_refl (a : pyval) : pyval_eqb a a = true.
Proof. apply pyval_eqb_eq. reflexivity. Qed.

Lemma pyval_eqb_neq (a b : pyval) : pyval_eqb a b = false <-> a <> b.
Proof.
  split.
  - intros H Heq. apply pyval_eqb_eq in Heq. congruence.
  - intros H. destruct (pyval_eqb a b) eqn:E; [|reflexivity].
    apply pyval_eqb_eq in E. contradiction.
Qed.

Lemma existsb_pyval_In (v : pyval) (l : list pyval) :
  existsb (pyval_eqb v) l = true <-> In v l.
Proof.
  rewrite existsb_exists. split.
  - intros [x [Hin Heq]]. apply pyval_eqb_eq in Heq. subst. assumption.
  - intros Hin. exists v. split; [assumption|apply pyval_eqb_refl].
Qed.

(** ** Series.unique *)

Lemma unique_from_spec (s seen : list pyval) :
  NoDup seen ->
  let u := fold_left
             (fun seen v => if existsb (pyval_eqb v) seen then seen
                            else seen ++ [v]) s seen in
  (exists ext, u = seen ++ ext) /\ NoDup u /\
  (forall v, In v u <-> In v seen \/ In v s).
Proof.
  revert seen. induction s as [|x s IH]; intros seen Hnd; simpl.
  - split; [exists []; rewrite app_nil_r; reflexivity|].
    split; [assumption|]. intros v. tauto.
  - destruct (existsb (pyval_eqb x) seen) eqn:E.
    + apply existsb_pyval_In in E.
      destruct (IH seen Hnd) as [Hext [Hnd' Hin]].
      split; [assumption|]. split; [assumption|].
      intros v. rewrite Hin. split; [tauto|].
      intros [H|[<-|H]]; tauto.
    + assert (Hx : ~ In x seen).
      { intros H. apply existsb_pyval_In in H. congruence. }
      destruct (IH (seen ++ [x])) as [[ext Hext] [Hnd' Hin]].
      { apply NoDup_app; [assumption|repeat constructor; simpl; tauto|].
        intros a Ha [<-|[]]. contradiction. }
      split; [exists ([x] ++ ext); rewrite Hext, <- app_assoc; reflexivity|].
      split; [assumption|].
      intros v. rewrite Hin, in_app_iff. simpl. tauto.
Qed.

Lemma unique_spec (s : list pyval) :
  NoDup (unique s) /\ (forall v, In v (unique s) <-> In v s).
Proof.
  destruct (unique_from_spec s [] (NoDup_nil _)) as [_ [Hnd Hin]].
  split; [exact Hnd|]. intros v. unfold unique. rewrite Hin. simpl. tauto.
Qed.

Lemma unique_head (x : pyval) (s : list pyval) :
  exists ext, unique (x :: s) = x :: ext.
Proof.
  unfold unique. simpl.
  destruct (unique_from_spec s [x]) as [[ext Hext] _].
  - repeat constructor. simpl. tauto.
  - exists ext. exact Hext.
Qed.

(** A value that was not seen before row [i] enters the list of distinct
    values right after those of the rows before. *)
Lemma unique_new_value (s : list pyval) (i : nat) (d : pyval) :
  i < length s -> ~ In (nth i s d) (firstn i s) ->
  exists ext, unique s = unique (firstn i s) ++ nth i s d :: ext.
Proof.
  intros Hi Hnew.
  assert (Hs : s = firstn i s ++ nth i s d :: skipn (S i) s).
  { rewrite <- (firstn_skipn i s) at 1. f_equal.
    clear Hnew. revert i Hi. induction s as [|x s IH]; intros [|i] Hi;
      simpl in *; try lia; [reflexivity|]. apply IH. lia. }
  assert (Hu : unique s
               = fold_left
                   (fun seen v => if existsb (pyval_eqb v) seen then seen
                                  else seen ++ [v])
                   (nth i s d :: skipn (S i) s) (unique (firstn i s))).
  { unfold unique. rewrite <- fold_left_app, <- Hs. reflexivity. }
  rewrite Hu. cbn [fold_left].
  destruct (unique_spec (firstn i s)) as [Hnd Hin].
  destruct (existsb (pyval_eqb (nth i s d)) (unique (firstn i s))) eqn:E.
  - apply existsb_pyval_In, Hin in E. contradiction.
  - destruct (unique_from_spec (skipn (S i) s)
                (unique (firstn i s) ++ [nth i s d])) as [[ext Hext] _].
    + apply NoDup_app; [assumption|repeat constructor; simpl; tauto|].
      intros a Ha [<-|[]]. apply Hin in Ha. contradiction.
    + exists ext. rewrite Hext, <- app_assoc. reflexivity.
Qed.

(** ** Series.replace *)

Lemma index_of_lt (v : pyval) (l : list pyval) :
  In v l -> index_of v l < length l.
Proof.
  induction l as [|x l IH]; simpl; [contradiction|].
  intros H. destruct (pyval_eqb v x) eqn:E; [lia|].
  apply pyval_eqb_neq in E. destruct H as [H|H]; [congruence|].
  specialize (IH H). lia.
Qed.

Lemma nth_index_of (v d : pyval) (l : list pyval) :
  In v l -> nth (index_of v l) l d = v.
Proof.
  induction l as [|x l IH]; simpl; [contradiction|].
  intros H. destruct (pyval_eqb v x) eqn:E.
  - apply pyval_eqb_eq in E. congruence.
  - apply pyval_eqb_neq in E. destruct H as [H|H]; [congruence|]. apply IH, H.
Qed.

Lemma index_of_nth (k : nat) (d : pyval) (l : list pyval) :
  NoDup l -> k < length l -> index_of (nth k l d) l = k.
Proof.
  intros Hnd. revert k. induction Hnd as [|x l Hx _ IH]; intros [|k] Hk;
    simpl in *; try lia.
  - rewrite pyval_eqb_refl. reflexivity.
  - destruct (pyval_eqb (nth k l d) x) eqn:E.
    + apply pyval_eqb_eq in E. exfalso. apply Hx. rewrite <- E.
      apply nth_In. lia.
    + f_equal. apply IH. lia.
Qed.

Lemma index_of_app (v : pyval) (a b : list pyval) :
  ~ In v a -> index_of v (a ++ v :: b) = length a.
Proof.
  induction a as [|x a IH]; simpl; intros H.
  - rewrite pyval_eqb_refl. reflexivity.
  - destruct (pyval_eqb v x) eqn:E.
    + apply pyval_eqb_eq in E. exfalso. apply H. left. congruence.
    + f_equal. apply IH. tauto.
Qed.

Lemma relabel_notin (pairs : list (pyval * pyval)) (orig cur : pyval) :
  ~ In orig (map fst pairs) -> relabel pairs orig cur = cur.
Proof.
  unfold relabel. revert cur. induction pairs as [|[u v] pairs IH];
    intros cur H; simpl in *; [reflexivity|].
  destruct (pyval_eqb orig u) eqn:E.
  - apply pyval_eqb_eq in E. exfalso. apply H. left. congruence.
  - apply IH. tauto.
Qed.

Lemma relabel_index (us vs : list pyval) (orig cur : pyval) :
  NoDup us -> In orig us -> length vs = length us ->
  relabel (combine us vs) orig cur = nth (index_of orig us) vs cur.
Proof.
  intros Hnd. revert vs cur.
  induction Hnd as [|u us Hu _ IH]; intros [|v vs] cur Hin Hlen;
    simpl in *; try contradiction; try discriminate.
  unfold relabel. simpl. fold (relabel (combine us vs) orig).
  destruct (pyval_eqb orig u) eqn:E.
  - apply pyval_eqb_eq in E. subst u. apply relabel_notin.
    intros H. apply Hu. apply in_map_iff in H.
    destruct H as [[a b] [<- H]]. apply in_combine_l in H. exact H.
  - apply pyval_eqb_neq in E. destruct Hin as [H|H]; [congruence|].
    apply IH; [assumption|lia].
Qed.

Lemma map_snd_combine_same {A B : Type} (a : list A) (b : list B) :
  length b = length a -> map snd (combine a b) = b.
Proof.
  revert b. induction a as [|x a IH]; intros [|y b] H; simpl in *;
    try discriminate; [reflexivity|]. f_equal. apply IH. lia.
Qed.

Lemma combine_putmask (s acc : list pyval) (u v : pyval) :
  combine s (putmask (map (fun e => pyval_eqb e u) s) v acc)
  = map (fun p => (fst p, if pyval_eqb (fst p) u then v else snd p))
      (combine s acc).
Proof.
  unfold putmask. revert acc. induction s as [|x s IH]; intros [|a acc];
    simpl; try reflexivity.
  f_equal. apply IH.
Qed.

Lemma length_putmask (mask : list bool) (v : pyval) (s : list pyval) :
  length mask = length s -> length (putmask mask v s) = length s.
Proof.
  intros H. unfold putmask. rewrite length_map, length_combine. lia.
Qed.

(** The masks are taken on the original Series [s]; entry by entry the
    writes amount to [relabel]. *)
Lemma fold_putmask (us vs s acc : list pyval) :
  length acc = length s ->
  fold_left (fun acc (md : list bool * pyval) => putmask (fst md) (snd md) acc)
    (combine (map (fun src => map (fun e => pyval_eqb e src) s) us) vs) acc
  = map (fun p => relabel (combine us vs) (fst p) (snd p)) (combine s acc).
Proof.
  revert vs acc. induction us as [|u us IH]; intros vs acc Hlen.
  - simpl. unfold relabel. simpl. symmetry.
    apply map_snd_combine_same. assumption.
  - destruct vs as [|v vs].
    + simpl. unfold relabel. simpl. symmetry.
      apply map_snd_combine_same. assumption.
    + cbn [map combine fold_left fst snd].
      rewrite IH by (rewrite length_putmask; rewrite ?length_map; lia).
      rewrite combine_putmask, map_map. apply map_ext.
      intros [e c]. reflexivity.
Qed.

(** [replace] with the distinct values of the Series itself and the labels
    [0 .. n-1]: every entry becomes the position of its value among the
    distinct values. *)
Lemma replace_by_index (s : list pyval) :
  replace (unique s)
    (map (fun n => PyInt (Z.of_nat n)) (seq 0 (length (unique s)))) s
  = Ok (map (fun e => PyInt (Z.of_nat (index_of e (unique s)))) s).
Proof.
  destruct (unique_spec s) as [Hnd Hin].
  unfold replace. rewrite length_map, length_seq, Nat.eqb_refl. f_equal.
  rewrite fold_putmask by reflexivity.
  assert (Hcomb : forall l : list pyval,
            map (fun p => relabel
                   (combine (unique s)
                      (map (fun n => PyInt (Z.of_nat n))
                         (seq 0 (length (unique s))))) (fst p) (snd p))
              (combine l l)
            = map (fun e => relabel
                     (combine (unique s)
                        (map (fun n => PyInt (Z.of_nat n))
                           (seq 0 (length (unique s))))) e e) l).
  { induction l as [|x l IH]; simpl; [reflexivity|]. f_equal. exact IH. }
  rewrite Hcomb. apply map_ext_in. intros e He.
  assert (Hu : In e (unique s)) by (apply Hin; exact He).
  rewrite relabel_index; try assumption;
    [|rewrite length_map, length_seq; reflexivity].
  rewrite (nth_indep _ e (PyInt (Z.of_nat 0)))
    by (rewrite length_map, length_seq; apply index_of_lt; assumption).
  rewrite (map_nth (fun n => PyInt (Z.of_nat n))).
  rewrite seq_nth by (apply index_of_lt; assumption). reflexivity.
Qed.

(** ** Labels *)

Lemma coord_key_inj (c c' : nat * nat) : coord_key c = coord_key c' -> c = c'.
Proof.
  unfold coord_key. intros H. apply str_of_coords_inj.
  apply (f_equal (fun v => match v with PyStr s => s | PyInt _ => EmptyString end))
    in H.
  exact H.
Qed.

Lemma NoDup_map_coord_key (l : list (nat * nat)) :
  NoDup l -> NoDup (map coord_key l).
Proof.
  induction 1 as [|c l Hc _ IH]; simpl; constructor; [|assumption].
  intros H. apply in_map_iff in H. destruct H as [c' [Heq Hin]].
  apply coord_key_inj in Heq. subst. contradiction.
Qed.

(** There are as many distinct keys as distinct coordinates. *)
Lemma length_unique_keys (l : list (nat * nat)) :
  length (unique (map coord_key l)) = length (nodup coord_eq_dec l).
Proof.
  destruct (unique_spec (map coord_key l)) as [Hnd Hin].
  rewrite <- (length_map coord_key (nodup coord_eq_dec l)).
  apply Permutation_length, NoDup_Permutation.
  - exact Hnd.
  - apply NoDup_map_coord_key, NoDup_nodup.
  - intros v. rewrite Hin, !in_map_iff.
    split; intros [c [Hc Hinc]]; exists c; (split; [exact Hc|]);
      apply (nodup_In coord_eq_dec); assumption.
Qed.

Lemma nth_labels_of (coords : list (nat * nat)) (i : nat) (d : nat * nat) :
  i < length coords ->
  nth i (labels_of coords) 0
  = index_of (coord_key (nth i coords d)) (unique (map coord_key coords)).
Proof.
  intros Hi. unfold labels_of.
  rewrite (nth_indep _ 0
             (index_of (coord_key d) (unique (map coord_key coords))))
    by (rewrite length_map; assumption).
  apply (map_nth (fun c => index_of (coord_key c)
                             (unique (map coord_key coords)))).
Qed.

Lemma key_in_unique (coords : list (nat * nat)) (c : nat * nat) :
  In c coords -> In (coord_key c) (unique (map coord_key coords)).
Proof.
  intros H. apply (proj2 (unique_spec _)). apply in_map. exact H.
Qed.

Lemma labels_of_spec (coords : list (nat * nat)) (d : nat * nat) :
  length (labels_of coords) = length coords /\
  (forall k, In k (labels_of coords)
             <-> k < length (nodup coord_eq_dec coords)) /\
  (forall i j, i < length coords -> j < length coords ->
     (nth i (labels_of coords) 0 = nth j (labels_of coords) 0
      <-> nth i coords d = nth j coords d)) /\
  (coords <> [] -> nth 0 (labels_of coords) 0 = 0) /\
  (forall i, i < length coords ->
     (forall j, j < i -> nth j coords d <> nth i coords d) ->
     nth i (labels_of coords) 0
     = length (nodup coord_eq_dec (firstn i coords))).
Proof.
  destruct (unique_spec (map coord_key coords)) as [Hnd Hin].
  split; [unfold labels_of; apply length_map|].
  split; [|split; [|split]].
  - intros k. rewrite <- length_unique_keys. split.
    + unfold labels_of. rewrite in_map_iff. intros [c [<- Hc]].
      apply index_of_lt, key_in_unique, Hc.
    + intros Hk.
      assert (Hv : In (nth k (unique (map coord_key coords)) (PyInt 0))
                     (map coord_key coords)).
      { apply Hin, nth_In, Hk. }
      apply in_map_iff in Hv. destruct Hv as [c [Hc Hinc]].
      unfold labels_of. apply in_map_iff. exists c. split; [|exact Hinc].
      rewrite Hc. apply index_of_nth; assumption.
  - intros i j Hi Hj.
    rewrite (nth_labels_of coords i d Hi), (nth_labels_of coords j d Hj).
    split; [|intros ->; reflexivity].
    intros Heq. apply coord_key_inj.
    rewrite <- (nth_index_of (coord_key (nth i coords d)) (PyInt 0)
                  (unique (map coord_key coords)))
      by (apply key_in_unique, nth_In, Hi).
    rewrite Heq. apply nth_index_of, key_in_unique, nth_In, Hj.
  - intros Hne. destruct coords as [|c rest]; [congruence|].
    unfold labels_of. cbn [map nth].
    destruct (unique_head (coord_key c) (map coord_key rest)) as [ext ->].
    cbn [index_of]. rewrite pyval_eqb_refl. reflexivity.
  - intros i Hi Hnew.
    rewrite (nth_labels_of coords i d Hi).
    rewrite <- length_unique_keys, <- firstn_map.
    assert (Hkey : nth i (map coord_key coords) (coord_key d)
                   = coord_key (nth i coords d)) by apply map_nth.
    destruct (unique_new_value (map coord_key coords) i (coord_key d))
      as [ext Hext].
    + rewrite length_map. exact Hi.
    + rewrite Hkey, firstn_map. intros H. apply in_map_iff in H.
      destruct H as [c [Hc Hinc]]. apply coord_key_inj in Hc. subst c.
      destruct (In_nth _ _ d Hinc) as [j [Hj Hnth]].
      rewrite length_firstn in Hj.
      rewrite nth_firstn in Hnth.
      destruct (Nat.ltb_spec j i) as [Hlt|Hge]; [|lia].
      apply (Hnew j Hlt). exact Hnth.
    + rewrite Hext, Hkey. apply index_of_app.
      intros H.
      apply (proj1 (proj2 (unique_spec (firstn i (map coord_key coords))) _))
        in H.
      rewrite firstn_map in H. apply in_map_iff in H.
      destruct H as [c [Hc Hinc]]. apply coord_key_inj in Hc. subst c.
      destruct (In_nth _ _ d Hinc) as [j [Hj Hnth]].
      rewrite length_firstn in Hj.
      rewrite nth_firstn in Hnth.
      destruct (Nat.ltb_spec j i) as [Hlt|Hge]; [|lia].
      apply (Hnew j Hlt). exact Hnth.
Qed.

(** [cluster_som] returns the labels of the winning coordinates of the
    rows. *)
Lemma cluster_som_labels_of (pixel_mat : DataFrame) (w : grid)
  (coords : list (nat * nat)) :
  mapM (fun row => winner row w) (df_values pixel_mat) = Ok coords ->
  cluster_som pixel_mat w
  = Ok (map (fun k => PyInt (Z.of_nat k)) (labels_of coords)).
Proof.
  intros Hm. unfold cluster_som. rewrite Hm. cbn [bind].
  change (map (fun c => PyStr (str_of_coords c)) coords)
    with (map coord_key coords).
  rewrite replace_by_index. f_equal. unfold labels_of.
  rewrite !map_map. reflexivity.
Qed.

(** C3: on a trained grid with at least one neuron and a non-empty sample
    matrix with matching channel count, [cluster_som] returns one integer
    label per row; with [K] the number of distinct winning coordinates, the
    labels that occur are exactly [0 .. K-1]; two rows get the same label
    exactly when their winning coordinates are equal; row 0 gets label 0; and
    a row whose coordinate was not seen before gets as label the number of
    distinct coordinates seen before it, so the labels grow in order of first
    occurrence. *)
Theorem cluster_som_dense_labels (X Y C : nat) (w : grid) (pixel_mat : DataFrame) :
  has_shape X Y C w -> 1 <= X -> 1 <= Y ->
  df_values pixel_mat <> [] ->
  Forall (fun r => length r = C) (df_values pixel_mat) ->
  let N := length (df_values pixel_mat) in
  exists (coords : list (nat * nat)) (labels : list nat),
    mapM (fun row => winner row w) (df_values pixel_mat) = Ok coords /\
    cluster_som pixel_mat w = Ok (map (fun k => PyInt (Z.of_nat k)) labels) /\
    length coords = N /\
    length labels = N /\
    (forall k, In k labels <-> k < length (nodup coord_eq_dec coords)) /\
    (forall i j, i < N -> j < N ->
       (nth i labels 0 = nth j labels 0
        <-> nth i coords (0, 0) = nth j coords (0, 0))) /\
    nth 0 labels 0 = 0 /\
    (forall i, i < N ->
       (forall j, j < i -> nth j coords (0, 0) <> nth i coords (0, 0)) ->
       nth i labels 0 = length (nodup coord_eq_dec (firstn i coords))).
Proof.
  intros Hw HX HY Hne Hrows N.
  assert (Hok : is_ok (mapM (fun row => winner row w) (df_values pixel_mat))
                = true).
  { apply mapM_ok_iff. rewrite Forall_forall in *. intros row Hin.
    apply (winner_ok_iff X Y C w row Hw HX HY). left. apply Hrows, Hin. }
  destruct (mapM (fun row => winner row w) (df_values pixel_mat))
    as [coords|e] eqn:Hm; [|discriminate].
  assert (Hlen : length coords = N).
  { apply mapM_Forall2, Forall2_length in Hm. symmetry. exact Hm. }
  destruct (labels_of_spec coords (0, 0)) as [H1 [H2 [H3 [H4 H5]]]].
  exists coords, (labels_of coords).
  split; [reflexivity|].
  split; [apply cluster_som_labels_of; exact Hm|].
  split; [exact Hlen|]. split; [rewrite H1; exact Hlen|].
  split; [exact H2|]. rewrite <- Hlen.
  split; [exact H3|]. split; [|exact H5].
  apply H4. intros ->. unfold N in Hlen.
  destruct (df_values pixel_mat); [congruence|discriminate].
Qed.

Lemma cluster_som_dense_labels_witness :
  exists labels,
    cluster_som (frame [[1; 0]; [0; 1]; [1; 0]; [0; 1]]%R)
      [[[1; 0]]; [[0; 1]]]%R
    = Ok (map (fun k => PyInt (Z.of_nat k)) labels) /\
    nth 0 labels 0 = 0.
Proof.
  destruct (cluster_som_dense_labels 2 1 2 [[[1; 0]]; [[0; 1]]]%R
              (frame [[1; 0]; [0; 1]; [1; 0]; [0; 1]]%R))
    as [coords [labels [_ [Hcl [_ [_ [_ [_ [H0 _]]]]]]]]].
  - split; [reflexivity|]. repeat constructor.
  - lia.
  - lia.
  - discriminate.
  - repeat constructor.
  - exists labels. split; [exact Hcl|exact H0].
Defined.

(** C7, over the real numbers: for [sigma > 0], a non-empty sample matrix
    and [num_passes >= 1], the sigma that step [t < T] hands to [update] is
    [decay_function sigma t T]; it lies in [(sigma / 3, sigma]], so it is
    positive, and the kernel denominator [2 * pi * sigma_t * sigma_t] is at
    least [2 * pi * sigma^2 / 9], hence not zero. *)
Theorem decayed_sigma_positive (sigma : R) (N : nat) (num_passes : Z) (t : nat) :
  (0 < sigma)%R -> 1 <= N -> (1 <= num_passes)%Z ->
  t < Z.to_nat num_passes * N ->
  exists sigma_t,
    decay_function sigma (Z.of_nat t) (num_passes * Z.of_nat N) = Ok sigma_t /\
    (sigma / 3 < sigma_t <= sigma)%R /\
    (2 * PI * sigma ^ 2 / 9 < 2 * PI * sigma_t * sigma_t)%R /\
    (2 * PI * sigma_t * sigma_t <> 0)%R.
Proof.
  intros Hsigma HN Hp Ht.
  set (T := (num_passes * Z.of_nat N)%Z).
  assert (HT : (Z.of_nat t < T)%Z).
  { unfold T. rewrite <- (Z2Nat.id num_passes) by lia.
    rewrite <- Nat2Z.inj_mul. apply Nat2Z.inj_lt. exact Ht. }
  assert (HT1 : (1 <= T)%Z) by lia.
  pose proof (Nat2Z.is_nonneg t) as Ht0.
  exists (sigma / (1 + IZR (Z.of_nat t) / (IZR T / 2)))%R.
  split; [apply decay_function_value; assumption|].
  destruct (decay_denominator_pos (Z.of_nat t) T HT1 Ht0) as [Hhalf Hden].
  set (den := (1 + IZR (Z.of_nat t) / (IZR T / 2))%R) in *.
  assert (Hden3 : (den < 3)%R).
  { unfold den.
    assert (IZR (Z.of_nat t) / (IZR T / 2) < 2)%R; [|lra].
    apply (Rmult_lt_reg_r (IZR T / 2)); [assumption|].
    unfold Rdiv at 1. rewrite Rmult_assoc, Rinv_l by lra.
    apply IZR_lt in HT. lra. }
  assert (Hinv : (/ 3 < / den <= 1)%R).
  { split.
    - apply Rinv_lt_contravar; [|assumption]. apply Rmult_lt_0_compat; lra.
    - rewrite <- Rinv_1. apply Rinv_le_contravar; lra. }
  assert (Hs : (sigma / 3 < sigma / den <= sigma)%R).
  { unfold Rdiv. destruct Hinv as [H3 H1]. split.
    - apply Rmult_lt_compat_l; assumption.
    - rewrite <- (Rmult_1_r sigma) at 2. apply Rmult_le_compat_l; lra. }
  split; [exact Hs|].
  assert (Hpi := PI_RGT_0).
  assert (Hsq : (sigma / 3 * (sigma / 3) < sigma / den * (sigma / den))%R).
  { apply Rmult_le_0_lt_compat; lra. }
  assert (Hd : (2 * PI * sigma ^ 2 / 9 < 2 * PI * (sigma / den) * (sigma / den))%R).
  { replace (2 * PI * sigma ^ 2 / 9)%R
      with (2 * PI * (sigma / 3 * (sigma / 3)))%R by field.
    rewrite (Rmult_assoc (2 * PI)).
    apply Rmult_lt_compat_l; [lra|exact Hsq]. }
  split; [exact Hd|].
  assert (0 <= 2 * PI * sigma ^ 2 / 9)%R; [|lra].
  assert (0 <= sigma ^ 2)%R by (apply pow2_ge_0).
  assert (0 <= 2 * PI * sigma ^ 2)%R by (apply Rmult_le_pos; lra).
  lra.
Qed.

Lemma decayed_sigma_positive_witness :
  exists sigma_t,
    decay_function 1 3 (1 * Z.of_nat 4) = Ok sigma_t /\ (1 / 3 < sigma_t <= 1)%R.
Proof.
  destruct (decayed_sigma_positive 1 4 1 3) as [s [Hd [Hb _]]].
  - lra.
  - lia.
  - lia.
  - simpl. lia.
  - exists s. split; [exact Hd|exact Hb].
Defined.

(** C7, as stated for the doubles the program computes with, fails.  With
    [sigma = 2^-600 > 0], one row and one pass, step 0 decays sigma to itself
    and [d = 2 * np.pi * sigma * sigma] underflows to [0.0]; the exponent at
    the winning neuron is then [-0.0 / 0.0], a nan.  With the smallest
    positive double, four steps, the decayed sigma of step 3 is [0.0]
    itself. *)
Lemma kernel_denominator_underflows :
  let sigma := 0x1p-600%float in
  let tiny := 0x0.0000000000001p-1022%float in
  PrimFloat.ltb 0 sigma = true /\
  Binary64.decay_function sigma 0 (1 * 1) = Ok sigma /\
  Binary64.kernel_denominator sigma = 0%float /\
  PrimFloat.is_nan
    (Binary64.exponent_at_winner (Binary64.kernel_denominator sigma)) = true /\
  PrimFloat.ltb 0 tiny = true /\
  Binary64.decay_function tiny 3 (1 * 4) = Ok 0%float.
Proof.
  vm_compute. repeat split; reflexivity.
Qed.

(** With the default [sigma = 1.0] the same doubles are far from the
    underflow: over the four steps of a four-row pass every decayed sigma is
    positive and every kernel denominator is not zero. *)
Example kernel_denominator_default_sigma :
  forallb
    (fun t =>
       match Binary64.decay_function 1%float t 4 with
       | Ok s =>
           PrimFloat.ltb 0 s
           && negb (PrimFloat.eqb (Binary64.kernel_denominator s) 0)
       | Raise _ => false
       end)
    [0; 1; 2; 3]%Z = true.
Proof. vm_compute. reflexivity. Qed.

(** ** A run of the assigner *)

Lemma norm_pair (a b : R) : norm [a; b] = sqrt (a * a + b * b).
Proof.
  unfold norm. cbn [map sum_list fold_right]. rewrite Rplus_0_r. reflexivity.
Qed.

(** The scenario of the specification: four rows that alternate between
    two vectors, on a grid whose two prototypes are those vectors.  Rows 0
    and 2 get label 0, rows 1 and 3 label 1. *)
Example cluster_som_scenario :
  cluster_som (frame [[1; 0]; [0; 1]; [1; 0]; [0; 1]]%R) [[[1; 0]]; [[0; 1]]]%R
  = Ok [PyInt 0; PyInt 1; PyInt 0; PyInt 1].
Proof.
  assert (H2 : (0 < sqrt 2)%R) by (apply sqrt_lt_R0; lra).
  assert (Ha : winner [1; 0]%R [[[1; 0]]; [[0; 1]]]%R = Ok (0, 0)).
  { unfold winner, np_subtract.
    cbn [mapM bcast length Nat.eqb combine fst snd lift2 bind].
    unfold np_linalg_norm, argmin. cbn [map concat app]. rewrite !norm_pair.
    replace ((1 - 1) * (1 - 1) + (0 - 0) * (0 - 0))%R with 0%R by ring.
    replace ((1 - 0) * (1 - 0) + (0 - 1) * (0 - 1))%R with 2%R by ring.
    rewrite sqrt_0. cbn [argmin_from].
    destruct (Rlt_dec (sqrt 2) 0) as [H|_]; [lra|]. reflexivity. }
  assert (Hb : winner [0; 1]%R [[[1; 0]]; [[0; 1]]]%R = Ok (1, 0)).
  { unfold winner, np_subtract.
    cbn [mapM bcast length Nat.eqb combine fst snd lift2 bind].
    unfold np_linalg_norm, argmin. cbn [map concat app]. rewrite !norm_pair.
    replace ((0 - 1) * (0 - 1) + (1 - 0) * (1 - 0))%R with 2%R by ring.
    replace ((0 - 0) * (0 - 0) + (1 - 1) * (1 - 1))%R with 0%R by ring.
    rewrite sqrt_0. cbn [argmin_from].
    destruct (Rlt_dec 0 (sqrt 2)) as [_|H]; [|lra]. reflexivity. }
  unfold cluster_som, frame. cbn [df_values mapM].
  rewrite Ha, Hb. cbn [bind]. reflexivity.
Qed.

(* ================================================================== *)
(** * Further properties of the program *)
(* ================================================================== *)

(** ** update: how far a neuron moves *)












(** ** update: when it raises *)

Lemma getitem_out_of_bounds (n m : nat) (a : mat) (i j : nat) :
  mat_shape n m a -> n <= i \/ m <= j -> getitem a (i, j) = Raise IndexError.
Proof.
  intros Ha H. unfold getitem. cbn [fst snd].
  destruct (nth_error a i) as [r|] eqn:Er; [|reflexivity].
  assert (Hi : i < n).
  { rewrite <- (proj1 Ha). apply nth_error_Some. congruence. }
  assert (Hr : length r = m).
  { destruct Ha as [_ Hrows]. rewrite Forall_forall in Hrows.
    apply Hrows. apply (nth_error_In _ _ Er). }
  destruct H as [H|H]; [lia|].
  destruct (nth_error r j) as [v|] eqn:Ev; [|reflexivity].
  assert (j < length r) by (apply nth_error_Some; congruence). lia.
Qed.

(** X5: whatever the sample, the grid and the parameters, [update] with
    the meshes of an [X] by [Y] grid raises IndexError when the winning
    coordinate is outside the grid ([wx >= X] or [wy >= Y]): the lookup
    [x_mesh.T[winning_coords]] fails before anything is computed. *)
Theorem update_index_error (X Y : nat) (w : grid) (sample : vec)
  (wx wy : nat) (sigma learning_rate : R) :
  X <= wx \/ Y <= wy ->
  update sample w (wx, wy) sigma learning_rate
    (fst (np_meshgrid (np_arange X) (np_arange Y)))
    (snd (np_meshgrid (np_arange X) (np_arange Y))) = Raise IndexError.
Proof.
  intros H. unfold update.
  assert (E : getitem
                (transpose (fst (np_meshgrid (np_arange X) (np_arange Y))))
                (wx, wy) = Raise IndexError).
  { destruct Y as [|Y'].
    - destruct wx; reflexivity.
    - apply (getitem_out_of_bounds X (S Y')); [|exact H].
      apply transpose_shape; [apply meshgrid_shape|lia]. }
  rewrite E. reflexivity.
Qed.

Lemma update_index_error_witness :
  update [1; 0]%R [[[0; 0]]; [[1; 1]]]%R (2, 0) 1%R (1 / 2)%R
    (fst (np_meshgrid (np_arange 2) (np_arange 1)))
    (snd (np_meshgrid (np_arange 2) (np_arange 1))) = Raise IndexError.
Proof.
  apply (update_index_error 2 1 [[[0; 0]]; [[1; 1]]]%R [1; 0]%R 2 0 1%R
           (1 / 2)%R).
  left. lia.
Defined.

Lemma bcast_ok_same_length {A B C : Type} (f : A -> B -> result C)
  (a : list A) (b : list B) (da : A) (db : B) :
  length a = length b ->
  (forall i, i < length a -> is_ok (f (nth i a da) (nth i b db)) = true) ->
  is_ok (bcast f a b) = true.
Proof.
  intros Hlen H. rewrite bcast_same_length by assumption.
  apply mapM_ok_iff. apply Forall_forall. intros [x y] Hin.
  destruct (In_nth _ _ (da, db) Hin) as [i [Hi Hnth]].
  rewrite length_combine in Hi. rewrite combine_nth in Hnth by assumption.
  injection Hnth as <- <-. apply H. lia.
Qed.

Lemma bcast_ok_inv {A B C : Type} (f : A -> B -> result C)
  (a : list A) (b : list B) (cs : list C) (da : A) (db : B) (dc : C) :
  length a = length b -> bcast f a b = Ok cs ->
  length cs = length a /\
  forall i, i < length a -> f (nth i a da) (nth i b db) = Ok (nth i cs dc).
Proof.
  intros Hlen H. rewrite bcast_same_length in H by assumption.
  apply mapM_Forall2 in H.
  apply (Forall2_nth_iff _ _ _ (da, db) dc) in H.
  rewrite length_combine, <- Hlen, Nat.min_id in H.
  destruct H as [H1 H2]. split; [lia|].
  intros i Hi. specialize (H2 i Hi).
  rewrite combine_nth in H2 by assumption. exact H2.
Qed.

(** After broadcasting, the difference of a sample and a prototype has a
    length that broadcasts against the prototype again. *)
Lemma bcast_lift2_length (f : R -> R -> R) (a b v : list R) :
  bcast (lift2 f) a b = Ok v -> broadcastable (length b) (length v).
Proof.
  unfold bcast, broadcastable.
  destruct (Nat.eqb_spec (length a) (length b)) as [E|E].
  - intros H. apply mapM_Forall2, Forall2_length in H.
    rewrite length_combine in H. left. lia.
  - destruct a as [|x [|x' a]]; destruct b as [|y [|y' b]];
      try discriminate; intros H;
      try (exfalso; apply E; reflexivity);
      apply mapM_Forall2, Forall2_length in H; simpl in *;
      first [ left; lia | right; left; reflexivity ].
Qed.

(** X6: on a grid of shape [(X, Y, C)], with the winning coordinate inside
    it, [update] returns a grid exactly when the length of the sample and the
    channel count [C] are broadcast-compatible (equal, or one of them 1); a
    sample of any other length makes it raise.  A mismatch with a length of
    1 is broadcast silently. *)
Theorem update_ok_iff_broadcastable (X Y C : nat) (w : grid) (sample : vec)
  (wx wy : nat) (sigma learning_rate : R) :
  has_shape X Y C w -> wx < X -> wy < Y ->
  (is_ok (update sample w (wx, wy) sigma learning_rate
            (fst (np_meshgrid (np_arange X) (np_arange Y)))
            (snd (np_meshgrid (np_arange X) (np_arange Y)))) = true
   <-> broadcastable (length sample) C).
Proof.
  intros Hw Hwx Hwy.
  assert (HX : 1 <= X) by lia. assert (HY : 1 <= Y) by lia.
  destruct (meshgrid_shape X Y) as [Hxm Hym].
  destruct (mesh_lookup X Y wx wy Hwx Hwy) as [Hcx Hcy].
  rewrite <- (np_subtract_ok_iff X Y C w sample Hw HX HY).
  unfold update. rewrite Hcx. cbn [bind]. rewrite Hcy. cbn [bind].
  set (ax := map2d _ (fst (np_meshgrid (np_arange X) (np_arange Y)))).
  set (ay := map2d _ (snd (np_meshgrid (np_arange X) (np_arange Y)))).
  assert (Hax : mat_shape Y X ax) by (apply map2d_shape; assumption).
  assert (Hay : mat_shape Y X ay) by (apply map2d_shape; assumption).
  rewrite (np_multiply_same Y X ax ay Hax Hay). cbn [bind].
  set (g := map2d _ (transpose (zip_with (zip_with Rmult) ax ay))).
  assert (Hg : mat_shape X Y g).
  { apply map2d_shape, transpose_shape; [apply zip2_shape; assumption|lia]. }
  destruct (np_subtract sample w) as [diff|e] eqn:Hd; cbn [bind];
    [|split; intros H; exact H].
  split; [reflexivity|]. intros _.
  destruct (np_subtract_rows sample w diff Hd) as [Hdlen Hdrows].
  unfold np_subtract in Hd. apply mapM_Forall2 in Hd.
  apply (Forall2_nth_iff _ _ _ [] []) in Hd. destruct Hd as [_ Hd].
  assert (Hcell : forall x y, x < X -> y < Y ->
            bcast (lift2 Rminus) sample (nth y (nth x w []) [])
            = Ok (nth y (nth x diff []) [])).
  { intros x y Hx Hy. specialize (Hd x ltac:(destruct Hw; lia)).
    apply mapM_Forall2 in Hd.
    apply (Forall2_nth_iff _ _ _ [] []) in Hd. destruct Hd as [_ Hd].
    apply Hd. rewrite (has_shape_rows X Y C w x Hw Hx). exact Hy. }
  assert (Hrowlen : forall x, x < X -> length (nth x diff []) = Y).
  { intros x Hx. rewrite Hdrows. apply (has_shape_rows X Y C); assumption. }
  assert (Hglen : length g = length diff)
    by (rewrite (proj1 Hg), Hdlen, (proj1 Hw); reflexivity).
  destruct (np_einsum g diff) as [delta|e] eqn:He.
  - cbn [bind]. unfold np_einsum in He.
    destruct (bcast_ok_inv _ g diff delta [] [] [] Hglen He) as [Hdl Hdelta].
    unfold np_add.
    apply (bcast_ok_same_length _ w delta [] []); [destruct Hw, Hg; lia|].
    intros x Hx. rewrite (proj1 Hw) in Hx.
    specialize (Hdelta x ltac:(destruct Hg; lia)).
    assert (Hgrow : length (nth x g []) = length (nth x diff [])).
    { rewrite (mat_shape_row X Y g x Hg Hx), (Hrowlen x Hx). reflexivity. }
    destruct (bcast_ok_inv _ _ _ _ 0%R [] [] Hgrow Hdelta) as [Hrl Hrow].
    apply (bcast_ok_same_length _ _ _ [] []).
    { rewrite (has_shape_rows X Y C w x Hw Hx), Hrl.
      rewrite (mat_shape_row X Y g x Hg Hx). reflexivity. }
    intros y Hy. rewrite (has_shape_rows X Y C w x Hw Hx) in Hy.
    specialize (Hrow y ltac:(rewrite (mat_shape_row X Y g x Hg Hx); exact Hy)).
    injection Hrow as Hrow. rewrite <- Hrow.
    apply (bcast_lift2_ok_iff Rplus). rewrite length_map.
    apply (bcast_lift2_length Rminus sample). apply Hcell; assumption.
  - exfalso.
    assert (Hok : is_ok (np_einsum g diff) = true).
    { unfold np_einsum.
      apply (bcast_ok_same_length _ g diff [] []); [exact Hglen|].
      intros x Hx. rewrite (proj1 Hg) in Hx.
      apply (bcast_ok_same_length _ _ _ 0%R []).
      - rewrite (mat_shape_row X Y g x Hg Hx), (Hrowlen x Hx). reflexivity.
      - intros; reflexivity. }
    rewrite He in Hok. discriminate Hok.
Qed.

Lemma update_ok_iff_broadcastable_witness :
  is_ok (update [1]%R [[[0; 0]]; [[1; 1]]]%R (1, 0) 1%R (1 / 2)%R
           (fst (np_meshgrid (np_arange 2) (np_arange 1)))
           (snd (np_meshgrid (np_arange 2) (np_arange 1)))) = true.
Proof.
  apply (update_ok_iff_broadcastable 2 1 2 [[[0; 0]]; [[1; 1]]]%R [1]%R 1 0
           1%R (1 / 2)%R).
  - split; [reflexivity|]. repeat constructor.
  - lia.
  - lia.
  - right; left. reflexivity.
Defined.

(** ** train_som: result, errors, visiting order *)

(** X7: on a frame with the default row labels and rows of one length [C],
    and a grid with at least one neuron, [train_som] raises nothing,
    whatever [num_passes] is (zero, negative or positive) and whether or not
    the frame has rows, and the grid it returns has the shape
    [(x_neurons, y_neurons, C)] of the initial one. *)
Theorem train_som_returns_shape (pixel_mat : DataFrame) (X Y C : nat)
  (num_passes : Z) (sigma learning_rate : R) (rnd : grid) :
  df_index pixel_mat = range_index (length (df_values pixel_mat)) ->
  Forall (fun r => length r = C) (df_values pixel_mat) ->
  1 <= X -> 1 <= Y -> has_shape X Y C rnd ->
  exists w',
    train_som pixel_mat X Y num_passes sigma learning_rate rnd = Ok w' /\
    has_shape X Y C w'.
Proof.
  intros Hidx Hrows HX HY Hrnd.
  set (N := length (df_values pixel_mat)).
  set (num_iters := (num_passes * Z.of_nat N)%Z).
  set (x_mesh := fst (np_meshgrid (np_arange X) (np_arange Y))).
  set (y_mesh := snd (np_meshgrid (np_arange X) (np_arange Y))).
  destruct (for_each_chain
              (fun w t => train_step pixel_mat num_iters sigma learning_rate
                            x_mesh y_mesh w (t, t mod N))
              (has_shape X Y C) (Z.to_nat num_iters) (initial_weights rnd))
    as [g [_ [_ [Hinv Hrun]]]].
  { apply initial_weights_shape. assumption. }
  { intros w t Ht Hw.
    assert (Hiters : (1 <= num_iters)%Z) by lia.
    assert (Hne : df_values pixel_mat <> []).
    { intros E. unfold num_iters, N in Hiters. rewrite E in Hiters.
      simpl in Hiters. lia. }
    destruct (train_step_ok pixel_mat X Y C num_iters sigma learning_rate
                w t Hidx Hne Hrows HX HY Hiters Hw)
      as [s [wc [ds [dl [w' [_ [_ [_ [_ [_ [_ [Hts Hw']]]]]]]]]]]].
    exists w'. split; assumption. }
  exists (g (Z.to_nat num_iters)). split; [|apply Hinv; lia].
  unfold train_som. fold N. fold num_iters.
  replace (np_meshgrid (np_arange X) (np_arange Y)) with (x_mesh, y_mesh)
    by (unfold x_mesh, y_mesh; destruct (np_meshgrid _ _); reflexivity).
  rewrite enumerate_iter_rows, for_each_map. exact Hrun.
Qed.

Lemma train_som_returns_shape_witness :
  exists w',
    train_som (frame [[1; 0]; [0; 1]]%R) 1 1 3 1%R (1 / 2)%R [[[1; 1]]]%R
    = Ok w' /\ has_shape 1 1 2 w'.
Proof.
  apply (train_som_returns_shape (frame [[1; 0]; [0; 1]]%R) 1 1 2 3 1%R
           (1 / 2)%R [[[1; 1]]]%R).
  - reflexivity.
  - repeat constructor.
  - lia.
  - lia.
  - split; [reflexivity|]. repeat constructor.
Defined.

Lemma enumerate_iter_rows_head (num_iters : Z) (n : nat) :
  (1 <= num_iters)%Z ->
  exists rest, enumerate (iter_rows num_iters n) = (0, 0 mod n) :: rest.
Proof.
  intros H. rewrite enumerate_iter_rows.
  destruct (Z.to_nat num_iters) as [|k] eqn:E; [lia|].
  simpl. eexists. reflexivity.
Qed.

(** X8: [train_som] addresses rows by label.  When the frame has rows and
    [num_passes >= 1] but no row carries the label 0, the first step raises
    KeyError, before any winner is looked for. *)
Theorem train_som_missing_label (pixel_mat : DataFrame)
  (x_neurons y_neurons : nat) (num_passes : Z) (sigma learning_rate : R)
  (rnd : grid) :
  df_values pixel_mat <> [] -> (1 <= num_passes)%Z ->
  ~ In 0%Z (df_index pixel_mat) ->
  train_som pixel_mat x_neurons y_neurons num_passes sigma learning_rate rnd
  = Raise KeyError.
Proof.
  intros Hne Hp Hnot.
  assert (Hloc : get_loc (df_index pixel_mat) (Z.of_nat 0) = None).
  { simpl. induction (df_index pixel_mat) as [|l idx IH]; [reflexivity|].
    simpl. destruct (Z.eqb_spec l 0) as [->|_].
    - exfalso. apply Hnot. left. reflexivity.
    - rewrite IH; [reflexivity|]. intros H. apply Hnot. right. exact H. }
  assert (HN : 1 <= length (df_values pixel_mat)).
  { destruct (df_values pixel_mat); [congruence|simpl; lia]. }
  destruct (enumerate_iter_rows_head
              (num_passes * Z.of_nat (length (df_values pixel_mat)))
              (length (df_values pixel_mat))) as [rest Hhead]; [nia|].
  unfold train_som. destruct (np_meshgrid _ _) as [x_mesh y_mesh].
  rewrite Hhead. rewrite Nat.Div0.mod_0_l.
  cbn [for_each]. unfold train_step, loc. rewrite Hloc. reflexivity.
Qed.

Lemma train_som_missing_label_witness :
  train_som {| df_index := [10; 11]%Z; df_values := [[1; 0]; [0; 1]]%R |}
    1 1 1 1%R (1 / 2)%R [[[1; 1 / 2]]]%R = Raise KeyError.
Proof.
  apply train_som_missing_label.
  - discriminate.
  - lia.
  - simpl. intros [H|[H|[]]]; discriminate H.
Defined.

(** X9: with [x_neurons = 0] or [y_neurons = 0] the grid has no neuron, and
    on a frame with rows (default labels) and [num_passes >= 1] the first
    step of [train_som] raises ValueError: there is no minimum to take. *)
Theorem train_som_no_neuron (pixel_mat : DataFrame) (X Y C : nat)
  (num_passes : Z) (sigma learning_rate : R) (rnd : grid) :
  df_index pixel_mat = range_index (length (df_values pixel_mat)) ->
  df_values pixel_mat <> [] -> (1 <= num_passes)%Z ->
  has_shape X Y C rnd -> X = 0 \/ Y = 0 ->
  train_som pixel_mat X Y num_passes sigma learning_rate rnd
  = Raise ValueError.
Proof.
  intros Hidx Hne Hp Hrnd H0.
  assert (HN : 1 <= length (df_values pixel_mat)).
  { destruct (df_values pixel_mat); [congruence|simpl; lia]. }
  destruct (enumerate_iter_rows_head
              (num_passes * Z.of_nat (length (df_values pixel_mat)))
              (length (df_values pixel_mat))) as [rest Hhead]; [nia|].
  destruct (nth_error (df_values pixel_mat) 0) as [sample|] eqn:Hs;
    [|apply nth_error_None in Hs; lia].
  unfold train_som. destruct (np_meshgrid _ _) as [x_mesh y_mesh].
  rewrite Hhead. rewrite Nat.Div0.mod_0_l.
  cbn [for_each]. unfold train_step.
  rewrite (loc_range_index pixel_mat 0 sample Hidx Hs). cbn [bind].
  rewrite (winner_no_neuron X Y C (initial_weights rnd) sample
             (initial_weights_shape X Y C rnd Hrnd) H0).
  reflexivity.
Qed.

Lemma train_som_no_neuron_witness :
  train_som (frame [[1; 0]; [0; 1]]%R) 0 3 1 1%R (1 / 2)%R [] = Raise ValueError.
Proof.
  apply (train_som_no_neuron (frame [[1; 0]; [0; 1]]%R) 0 3 2).
  - reflexivity.
  - discriminate.
  - lia.
  - split; [reflexivity|constructor].
  - left. reflexivity.
Defined.

Lemma map_mod_seq_block (k n : nat) :
  map (fun i => i mod n) (seq (k * n) n) = seq 0 n.
Proof.
  destruct n as [|n']; [reflexivity|].
  apply (nth_ext _ _ 0 0); [rewrite length_map, !length_seq; reflexivity|].
  intros j Hj. rewrite length_map, length_seq in Hj.
  rewrite (nth_indep _ 0 ((fun i => i mod S n') 0))
    by (rewrite length_map, length_seq; assumption).
  rewrite (map_nth (fun i => i mod S n')), !seq_nth by assumption.
  rewrite Nat.add_comm, Nat.Div0.mod_add. apply Nat.mod_small. assumption.
Qed.

Lemma count_occ_iter_block (k n i : nat) :
  i < n ->
  count_occ Nat.eq_dec (map (fun j => j mod n) (seq 0 (k * n))) i = k.
Proof.
  intros Hi. induction k as [|k IH]; [reflexivity|].
  replace (S k * n) with (k * n + n) by lia.
  rewrite seq_app, map_app, count_occ_app, IH. simpl.
  rewrite map_mod_seq_block.
  assert (H1 : count_occ Nat.eq_dec (seq 0 n) i = 1).
  { apply NoDup_count_occ'; [apply seq_NoDup|]. apply in_seq. lia. }
  lia.
Qed.

(** X10: [train_som] treats the rows evenly: in the sequence of rows it
    visits, every row position [i < N] occurs exactly [num_passes] times
    (none at all when [num_passes <= 0]), and nothing else occurs. *)
Theorem iter_rows_visits_each_row (num_passes : Z) (N i : nat) :
  i < N ->
  count_occ Nat.eq_dec (iter_rows (num_passes * Z.of_nat N) N) i
  = Z.to_nat num_passes /\
  forall row, In row (iter_rows (num_passes * Z.of_nat N) N) -> row < N.
Proof.
  intros Hi. unfold iter_rows, np_arange.
  assert (E : Z.to_nat (num_passes * Z.of_nat N) = Z.to_nat num_passes * N).
  { destruct (Z.le_gt_cases 0 num_passes) as [Hp|Hp].
    - rewrite Z2Nat.inj_mul by lia. rewrite Nat2Z.id. reflexivity.
    - assert (num_passes * Z.of_nat N <= 0)%Z by nia.
      replace (Z.to_nat num_passes) with 0 by lia. lia. }
  rewrite E. split; [apply count_occ_iter_block; exact Hi|].
  intros row Hin. apply in_map_iff in Hin. destruct Hin as [j [<- _]].
  apply Nat.mod_upper_bound. lia.
Qed.

Lemma iter_rows_visits_each_row_witness :
  count_occ Nat.eq_dec (iter_rows (3 * Z.of_nat 4) 4) 2 = 3.
Proof.
  destruct (iter_rows_visits_each_row 3 4 2) as [H _].
  - lia.
  - exact H.
Defined.

(** ** The initial grid *)







(** ** decay_function: errors and shape of the schedule *)





(** ** winner: a sample that is one of the prototypes *)







(** ** cluster_som: how many labels, and what appending rows does *)

Lemma mapM_app_inv {A B : Type} (f : A -> result B) (a b : list A)
  (cs : list B) :
  mapM f (a ++ b) = Ok cs ->
  exists ca cb, mapM f a = Ok ca /\ mapM f b = Ok cb /\ cs = ca ++ cb.
Proof.
  intros H. apply mapM_Forall2 in H. apply Forall2_app_inv_l in H.
  destruct H as [ca [cb [Ha [Hb ->]]]].
  exists ca, cb. split; [apply mapM_Forall2; exact Ha|].
  split; [apply mapM_Forall2; exact Hb|reflexivity].
Qed.

Lemma cluster_som_ok_inv (pixel_mat : DataFrame) (w : grid)
  (labels : list pyval) :
  cluster_som pixel_mat w = Ok labels ->
  exists coords,
    mapM (fun row => winner row w) (df_values pixel_mat) = Ok coords /\
    labels = map (fun k => PyInt (Z.of_nat k)) (labels_of coords).
Proof.
  intros H.
  destruct (mapM (fun row => winner row w) (df_values pixel_mat))
    as [coords|e] eqn:Hm.
  - exists coords. split; [reflexivity|].
    rewrite (cluster_som_labels_of pixel_mat w coords Hm) in H.
    injection H as <-. reflexivity.
  - unfold cluster_som in H. rewrite Hm in H. discriminate.
Qed.

Lemma index_of_app_in (v : pyval) (a b : list pyval) :
  In v a -> index_of v (a ++ b) = index_of v a.
Proof.
  induction a as [|x a IH]; simpl; [contradiction|].
  intros H. destruct (pyval_eqb v x) eqn:E; [reflexivity|].
  apply pyval_eqb_neq in E. destruct H as [H|H]; [congruence|].
  f_equal. apply IH, H.
Qed.

Lemma unique_app (s s' : list pyval) :
  exists ext, unique (s ++ s') = unique s ++ ext.
Proof.
  unfold unique. rewrite fold_left_app.
  destruct (unique_from_spec s' (unique s)) as [Hext _].
  - apply unique_spec.
  - exact Hext.
Qed.

Lemma labels_of_app (ca cb : list (nat * nat)) :
  firstn (length ca) (labels_of (ca ++ cb)) = labels_of ca.
Proof.
  unfold labels_of. rewrite (map_app coord_key).
  destruct (unique_app (map coord_key ca) (map coord_key cb)) as [ext ->].
  rewrite map_app.
  rewrite <- (length_map (fun c => index_of (coord_key c)
                 (unique (map coord_key ca) ++ ext)) ca) at 1.
  rewrite firstn_app, Nat.sub_diag, firstn_all. cbn [firstn].
  rewrite app_nil_r.
  apply map_ext_in. intros c Hc.
  apply index_of_app_in, key_in_unique, Hc.
Qed.

(** X15: [cluster_som] never uses more labels than the grid has neurons,
    nor more than the frame has rows: every label it returns is an integer
    [k] with [k < x_neurons * y_neurons] and [k < number of rows]. *)
Theorem cluster_som_label_bound (X Y C : nat) (w : grid)
  (pixel_mat : DataFrame) (labels : list pyval) :
  has_shape X Y C w -> df_values pixel_mat <> [] ->
  cluster_som pixel_mat w = Ok labels ->
  forall v, In v labels ->
    exists k, v = PyInt (Z.of_nat k) /\
              k < X * Y /\ k < length (df_values pixel_mat).
Proof.
  intros Hw _ Hc v Hv.
  destruct (cluster_som_ok_inv _ _ _ Hc) as [coords [Hm ->]].
  apply in_map_iff in Hv. destruct Hv as [k [<- Hk]].
  exists k. split; [reflexivity|].
  destruct (labels_of_spec coords (0, 0)) as [_ [Hin _]].
  apply Hin in Hk.
  apply mapM_Forall2 in Hm.
  pose proof (Forall2_length Hm) as Hlen.
  split.
  - apply (Nat.lt_le_trans _ _ _ Hk).
    replace (X * Y) with (length (list_prod (seq 0 X) (seq 0 Y)))
      by (rewrite length_prod, !length_seq; reflexivity).
    apply NoDup_incl_length; [apply NoDup_nodup|].
    intros [x y] Hxy. apply nodup_In in Hxy.
    apply in_prod_iff. rewrite !in_seq.
    assert (Hb : Forall (fun c => fst c < X /\ snd c < Y) coords).
    { clear - Hm Hw. induction Hm as [|row c rows cs Hwin _ IH];
        constructor; [|exact IH].
      apply (winner_in_bounds X Y C row w c Hw Hwin). }
    rewrite Forall_forall in Hb. specialize (Hb _ Hxy). simpl in Hb. lia.
  - rewrite Hlen. apply (Nat.lt_le_trans _ _ _ Hk).
    apply NoDup_incl_length; [apply NoDup_nodup|].
    intros c Hcin. apply nodup_In in Hcin. exact Hcin.
Qed.

Lemma cluster_som_label_bound_witness :
  exists k, PyInt 1 = PyInt (Z.of_nat k) /\ k < 2 * 1 /\
            k < length (df_values (frame [[1; 0]; [0; 1]; [1; 0]; [0; 1]]%R)).
Proof.
  apply (cluster_som_label_bound 2 1 2 [[[1; 0]]; [[0; 1]]]%R
           (frame [[1; 0]; [0; 1]; [1; 0]; [0; 1]]%R)
           [PyInt 0; PyInt 1; PyInt 0; PyInt 1]).
  - split; [reflexivity|]. repeat constructor.
  - discriminate.
  - exact cluster_som_scenario.
  - right. left. reflexivity.
Defined.

(** X16: appending rows to the frame does not change the labels of the
    rows that were there: the labels [cluster_som] gives to a frame are the
    first labels it gives to the frame with further rows after it. *)
Theorem cluster_som_prefix_stable (pixel_mat longer : DataFrame) (w : grid)
  (more : list (list R)) (labels' : list pyval) :
  df_values pixel_mat <> [] ->
  df_values longer = df_values pixel_mat ++ more ->
  cluster_som longer w = Ok labels' ->
  cluster_som pixel_mat w
  = Ok (firstn (length (df_values pixel_mat)) labels').
Proof.
  intros _ Hrows Hc.
  destruct (cluster_som_ok_inv _ _ _ Hc) as [coords [Hm ->]].
  rewrite Hrows in Hm.
  destruct (mapM_app_inv _ _ _ _ Hm) as [ca [cb [Ha [_ ->]]]].
  rewrite (cluster_som_labels_of pixel_mat w ca Ha). f_equal.
  pose proof (proj1 (mapM_Forall2 _ _ _) Ha) as Hf.
  rewrite (Forall2_length Hf), firstn_map, labels_of_app. reflexivity.
Qed.

Lemma cluster_som_prefix_stable_witness :
  cluster_som (frame [[1; 0]; [0; 1]]%R) [[[1; 0]]; [[0; 1]]]%R
  = Ok (firstn (length (df_values (frame [[1; 0]; [0; 1]]%R)))
          [PyInt 0; PyInt 1; PyInt 0; PyInt 1]).
Proof.
  apply (cluster_som_prefix_stable (frame [[1; 0]; [0; 1]]%R)
           (frame [[1; 0]; [0; 1]; [1; 0]; [0; 1]]%R) [[[1; 0]]; [[0; 1]]]%R
           [[1; 0]; [0; 1]]%R).
  - discriminate.
  - reflexivity.
  - exact cluster_som_scenario.
Defined.

(** X17: the text [cluster_som] files a winning coordinate under
    determines the coordinate: two coordinates have the same text exactly
    when they are the same neuron, so no two neurons are merged into one
    label. *)
Theorem coordinate_text_determines_the_neuron (c c' : nat * nat) :
  str_of_coords c = str_of_coords c' <-> c = c'.
Proof.
  split; [apply str_of_coords_inj|]. intros ->. reflexivity.
Qed.

(** ** train_som: the weights stay in the range of the data *)





(** ** cluster_som: when it raises *)

(** X19: on a grid that has neurons, [cluster_som] returns labels exactly
    when every row of the frame broadcasts against the channel axis of the
    grid (it has as many entries as a prototype, or one of the two lengths
    is 1); on a grid without neurons it raises ValueError at the first
    row. *)
Theorem cluster_som_ok_iff_rows (X Y C : nat) (w : grid)
  (pixel_mat : DataFrame) :
  has_shape X Y C w -> df_values pixel_mat <> [] ->
  (1 <= X -> 1 <= Y ->
   (is_ok (cluster_som pixel_mat w) = true
    <-> Forall (fun row => broadcastable (length row) C)
          (df_values pixel_mat))) /\
  (X = 0 \/ Y = 0 -> cluster_som pixel_mat w = Raise ValueError).
Proof.
  intros Hw Hne. split.
  - intros HX HY. rewrite cluster_som_ok_iff, mapM_ok_iff.
    rewrite !Forall_forall. split; intros H row Hrow.
    + apply (winner_ok_iff X Y C w row Hw HX HY), H, Hrow.
    + apply (winner_ok_iff X Y C w row Hw HX HY), H, Hrow.
  - intros H0. unfold cluster_som.
    destruct (df_values pixel_mat) as [|row rows]; [congruence|].
    cbn [mapM]. rewrite (winner_no_neuron X Y C w row Hw H0). reflexivity.
Qed.

Lemma cluster_som_ok_iff_rows_witness :
  is_ok (cluster_som (frame [[1; 0]; [0; 1]; [1; 0]; [0; 1]]%R)
           [[[1; 0]]; [[0; 1]]]%R) = true.
Proof.
  destruct (cluster_som_ok_iff_rows 2 1 2 [[[1; 0]]; [[0; 1]]]%R
              (frame [[1; 0]; [0; 1]; [1; 0]; [0; 1]]%R)) as [H _].
  - split; [reflexivity|]. repeat constructor.
  - discriminate.
  - apply H; [lia|lia|]. repeat constructor.
Defined.
